(** * image-filter: a shallow embedding of [filter.py]

    The script maps every pixel of an image through one of four colour
    functions.  Python integers are [Z], Python floats are the kernel's
    binary64 numbers ([float], with [Prim2SF] as their IEEE reading), the
    [PixelAccess] object of an 8-bit RGB image is a finite map from
    coordinates to RGB triples that the traversal mutates in place and that
    clips every channel assigned to it to 0..255, and exceptions are values
    of a small error type.  The builtin [str.upper] is modelled on ASCII
    strings and is a parameter elsewhere. *)

From Stdlib Require Import ZArith List String Ascii Lia Floats.
From stdpp Require Import gmap.

Local Open Scope Z_scope.

(* A decimal constant such as [0.299] denotes the nearest binary64 number,
   in Rocq as in Python; the reminder printed at each one is turned off. *)
#[local] Set Warnings "-inexact-float".

(** ** Data model *)

(** An RGB pixel, as the tuple [(r, g, b)] the pixel map hands out. *)
Abbreviation pixel := (Z * Z * Z)%type.

(** The exceptions the modelled code can raise. *)
Inductive exn : Type :=
| IndexError
| KeyError (name : string)
| OverflowError
| ValueError.

Inductive result (A : Type) : Type :=
| Ok (a : A)
| Raise (e : exn).
Arguments Ok {A} a.
Arguments Raise {A} e.

Definition result_bind {A B} (r : result A) (k : A -> result B) : result B :=
  match r with
  | Ok a => k a
  | Raise e => Raise e
  end.

(** [class Filter(Enum)] *)
Inductive Filter : Type := GRAYSCALE | SEPIA | WARMER | COOLER.

(** One access to the pixel map: [pixel_map[x, y]] read or assigned. *)
Inductive access : Type :=
| Read (x y : Z)
| Write (x y : Z) (p : pixel).

(** The image under transformation: the pixel map, and the log of the
    accesses made to it so far (oldest first). *)
Record image : Type := Image {
  pixels : gmap (Z * Z) pixel;
  trace : list access
}.

(** Code that works on the one shared image and may raise.  The image is
    returned in both cases: what was written before an exception stays
    written. *)
Definition M (A : Type) : Type := image -> result A * image.

Definition ret {A} (a : A) : M A := fun st => (Ok a, st).

Definition bind {A B} (m : M A) (k : A -> M B) : M B :=
  fun st =>
    match m st with
    | (Ok a, st') => k a st'
    | (Raise e, st') => (Raise e, st')
    end.

Definition lift {A} (r : result A) : M A := fun st => (r, st).

Notation "'let*' x ':=' m 'in' k" := (bind m (fun x => k))
  (at level 10, x pattern, m at level 100, k at level 200).
Notation "'let?' x ':=' r 'in' k" := (result_bind r (fun x => k))
  (at level 10, x pattern, r at level 100, k at level 200).

(** [pixel_map[x, y]]: the pixel stored at a coordinate of the image,
    [IndexError] outside it. *)
Definition getitem (x y : Z) : M pixel :=
  fun st =>
    match pixels st !! (x, y) with
    | Some p => (Ok p, Image (pixels st) (trace st ++ [Read x y]))
    | None => (Raise IndexError, st)
    end.

(** An 8-bit channel keeps a value clipped to 0..255. *)
Definition clip8 (x : Z) : Z := Z.max 0 (Z.min 255 x).

(** The values a C [int] holds, taken as 32 bits. *)
Definition c_int (x : Z) : bool := (- 2 ^ 31 <=? x) && (x <? 2 ^ 31).

(** What the pixel map of an 8-bit RGB image keeps of an assigned triple:
    the image library converts each channel to a machine integer
    ([OverflowError] beyond it) and clips it to 0..255. *)
Definition stored (p : pixel) : result pixel :=
  let '(r, g, b) := p in
  if c_int r && c_int g && c_int b then Ok (clip8 r, clip8 g, clip8 b)
  else Raise OverflowError.

(** [pixel_map[x, y] = p]: the coordinate is checked, then the triple is
    converted and kept as [stored] says.  The log records the triple that
    was assigned. *)
Definition setitem (x y : Z) (p : pixel) : M unit :=
  fun st =>
    match pixels st !! (x, y) with
    | Some _ =>
        match stored p with
        | Ok q =>
            (Ok tt, Image (<[(x, y) := q]> (pixels st))
                          (trace st ++ [Write x y p]))
        | Raise e => (Raise e, st)
        end
    | None => (Raise IndexError, st)
    end.

(** [for x in xs: body(x)] *)
Fixpoint for_each {A} (xs : list A) (body : A -> M unit) : M unit :=
  match xs with
  | [] => ret tt
  | x :: xs' => let* _ := body x in for_each xs' body
  end.

(** [range(n)]: empty when [n <= 0]. *)
Definition range (n : Z) : list Z := seqZ 0 n.

(** ** The transformer *)

(** The body of the inner loop of [transform_pixels]. *)
Definition transform_pixel (conversion_function : Z -> Z -> Z -> result pixel)
    (i j : Z) : M unit :=
  let* (r, g, b) := getitem i j in
  let* p := lift (conversion_function r g b) in
  setitem i j p.

Definition transform_pixels (width height : Z)
    (conversion_function : Z -> Z -> Z -> result pixel) : M unit :=
  for_each (range width) (fun i =>
    for_each (range height) (fun j =>
      transform_pixel conversion_function i j)).

(** The same loop body run over an arbitrary list of coordinates, to
    compare visiting orders. *)
Definition transform_coords (cs : list (Z * Z))
    (conversion_function : Z -> Z -> Z -> result pixel) : M unit :=
  for_each cs (fun c => transform_pixel conversion_function c.1 c.2).

(** The coordinates in the order [transform_pixels] visits them. *)
Definition coords (width height : Z) : list (Z * Z) :=
  i ← range width; (λ j, (i, j)) <$> range height.

(** One successful run of the loop body at coordinate [c] of pixel map
    [pm]: the triple the conversion function returns on the pixel found
    there, and what the pixel map keeps of it. *)
Definition conversion (f : Z -> Z -> Z -> result pixel)
    (pm : gmap (Z * Z) pixel) (c : Z * Z) : option (pixel * pixel) :=
  match pm !! c with
  | Some (r, g, b) =>
      match f r g b with
      | Ok q =>
          match stored q with
          | Ok q' => Some (q, q')
          | Raise _ => None
          end
      | Raise _ => None
      end
  | None => None
  end.

(** What the loop body leaves at coordinate [c]. *)
Definition converted (f : Z -> Z -> Z -> result pixel)
    (pm : gmap (Z * Z) pixel) (c : Z * Z) : option pixel :=
  snd <$> conversion f pm c.

(** The accesses one successful run of the loop body at [c] makes. *)
Definition step_trace (f : Z -> Z -> Z -> result pixel)
    (pm : gmap (Z * Z) pixel) (c : Z * Z) : list access :=
  match conversion f pm c with
  | Some (q, _) => [Read c.1 c.2; Write c.1 c.2 q]
  | None => []
  end.

(** The reads of coordinate [(x, y)] in a log, and the writes to it. *)
Definition is_read_at (x y : Z) (a : access) : bool :=
  match a with
  | Read x' y' => (x =? x') && (y =? y')
  | Write _ _ _ => false
  end.

Definition is_write_at (x y : Z) (a : access) : bool :=
  match a with
  | Read _ _ => false
  | Write x' y' _ => (x =? x') && (y =? y')
  end.

Definition reads_at (x y : Z) (tr : list access) : nat :=
  length (List.filter (is_read_at x y) tr).

Definition writes_at (x y : Z) (tr : list access) : nat :=
  length (List.filter (is_write_at x y) tr).

(** ** Numbers *)

(** [int(x)] for an [int] argument. *)
Definition int_of_int (x : Z) : Z := x.

(** [float(x)] for an [int] argument, as done implicitly by [c * x]: the
    nearest binary64 number, ties to even; [OverflowError] when that is
    out of range. *)
Definition float_of_int (x : Z) : result float :=
  let f := SF2Prim (binary_normalize prec emax x 0 false) in
  if is_infinity f then Raise OverflowError else Ok f.

(** Truncation toward zero of a binary64 number given by its IEEE reading. *)
Definition trunc_SF (x : spec_float) : result Z :=
  match x with
  | S754_zero _ => Ok 0
  | S754_finite s m e =>
      let a := if 0 <=? e then Z.pos m * 2 ^ e else Z.pos m / 2 ^ (- e) in
      Ok (if s then - a else a)
  | S754_infinity _ => Raise OverflowError
  | S754_nan => Raise ValueError
  end.

(** [int(x)] for a [float] argument. *)
Definition int_of_float (x : float) : result Z := trunc_SF (Prim2SF x).

(** ** The pixel functions *)

Definition weighted_sum (cr cg cb : float) (r g b : Z) : result float :=
  let? fr := float_of_int r in
  let? fg := float_of_int g in
  let? fb := float_of_int b in
  Ok (cr * fr + cg * fg + cb * fb)%float.

Definition grayscale_conversion_func (r g b : Z) : result pixel :=
  let? grayscale := weighted_sum 0.299 0.587 0.114 r g b in
  let? c1 := int_of_float grayscale in
  let? c2 := int_of_float grayscale in
  let? c3 := int_of_float grayscale in
  Ok (c1, c2, c3).

Definition sepia_conversion_func (r g b : Z) : result pixel :=
  let? sepia_red := weighted_sum 0.393 0.769 0.189 r g b in
  let? sepia_green := weighted_sum 0.349 0.686 0.168 r g b in
  let? sepia_blue := weighted_sum 0.272 0.534 0.131 r g b in
  let? c1 := int_of_float sepia_red in
  let? c2 := int_of_float sepia_green in
  let? c3 := int_of_float sepia_blue in
  Ok (c1, c2, c3).

Definition warmer_conversion_func (r g b : Z) : result pixel :=
  let warmer_red := r + 15 in
  let warmer_blue := b - 15 in
  Ok (int_of_int warmer_red, int_of_int g, int_of_int warmer_blue).

Definition cooler_conversion_func (r g b : Z) : result pixel :=
  let cooler_red := r - 15 in
  let cooler_blue := b + 15 in
  Ok (int_of_int cooler_red, int_of_int g, int_of_int cooler_blue).

Definition convert_to_grayscale (width height : Z) : M unit :=
  transform_pixels width height grayscale_conversion_func.

Definition convert_to_sepia (width height : Z) : M unit :=
  transform_pixels width height sepia_conversion_func.

Definition convert_to_warmer (width height : Z) : M unit :=
  transform_pixels width height warmer_conversion_func.

Definition convert_to_cooler (width height : Z) : M unit :=
  transform_pixels width height cooler_conversion_func.

(** A pixel function applied to a pixel that is itself the outcome of one. *)
Definition on_pixel (f : Z -> Z -> Z -> result pixel) (p : pixel) : result pixel :=
  let '(r, g, b) := p in f r g b.

(** ** The registry *)

(** A Python string is held as the bytes of its UTF-8 encoding; a string
    of ASCII characters is one with every byte below 128. *)
Definition is_ascii_char (c : ascii) : bool := (nat_of_ascii c <? 128)%nat.

Fixpoint is_ascii (s : string) : bool :=
  match s with
  | EmptyString => true
  | String c s' => is_ascii_char c && is_ascii s'
  end.

(** [str.upper] on strings of ASCII characters: the letters a-z are
    replaced, every other character is kept.  On other strings the builtin
    follows the Unicode tables, which [upper] does not model. *)
Definition upper_ascii (c : ascii) : ascii :=
  let n := nat_of_ascii c in
  if ((97 <=? n) && (n <=? 122))%nat then ascii_of_nat (n - 32) else c.

Fixpoint upper (s : string) : string :=
  match s with
  | EmptyString => EmptyString
  | String c s' => String (upper_ascii c) (upper s')
  end.

(** [Filter[name]]: the member of that exact name, [KeyError] otherwise. *)
Definition Filter_getitem (name : string) : result Filter :=
  if String.eqb name "GRAYSCALE" then Ok GRAYSCALE
  else if String.eqb name "SEPIA" then Ok SEPIA
  else if String.eqb name "WARMER" then Ok WARMER
  else if String.eqb name "COOLER" then Ok COOLER
  else Raise (KeyError name).

(** What is used of the builtin [str.upper]: on a string of ASCII
    characters it is [upper]. *)
Definition ascii_case (str_upper : string -> string) : Prop :=
  forall s, is_ascii s = true -> str_upper s = upper s.

(** [filter_from_string], with the builtin [str.upper] it calls as a
    parameter, for strings of any characters. *)
Definition filter_from_string_via (str_upper : string -> string)
    (filter_name : string) : result Filter :=
  let enum_name := str_upper filter_name in
  Filter_getitem enum_name.

(** [filter_from_string] on strings of ASCII characters. *)
Definition filter_from_string (filter_name : string) : result Filter :=
  let enum_name := upper filter_name in
  Filter_getitem enum_name.

Definition function_for_filter (filter_name : Filter) : Z -> Z -> M unit :=
  match filter_name with
  | GRAYSCALE => convert_to_grayscale
  | SEPIA => convert_to_sepia
  | WARMER => convert_to_warmer
  | COOLER => convert_to_cooler
  end.

(** Selector to pixel-map function, as [main] and [apply_filter] chain the
    two lookups. *)
Definition resolve (str_upper : string -> string) (selector : string) :
    result (Z -> Z -> M unit) :=
  let? filter_name := filter_from_string_via str_upper selector in
  Ok (function_for_filter filter_name).

(** A stand-in for [str.upper] that knows one word outside ASCII: the
    UTF-8 bytes of "sepia" spelt with a long s (U+017F), which upper-cases
    to "SEPIA". *)
Definition long_s_sepia : string :=
  String (ascii_of_nat 197) (String (ascii_of_nat 191) "epia").

Definition upper_long_s (s : string) : string :=
  if String.eqb s long_s_sepia then "SEPIA"%string else upper s.

(** The four selector names of the command line. *)
Definition selector_names : list string :=
  ["grayscale"; "sepia"; "warmer"; "cooler"]%string.

(** The 2x1 image of the end-to-end scenario, the outcome expected of it
    without clipping, and the pixel map the run leaves. *)
Definition scenario_in : gmap (Z * Z) pixel :=
  <[(0, 0) := (200, 150, 100)]> (<[(1, 0) := (10, 10, 10)]> ∅).

Definition scenario_unclipped : gmap (Z * Z) pixel :=
  <[(0, 0) := (185, 150, 115)]> (<[(1, 0) := (-5, 10, 25)]> ∅).

Definition scenario_out : gmap (Z * Z) pixel :=
  <[(0, 0) := (185, 150, 115)]> (<[(1, 0) := (0, 10, 25)]> ∅).

(** ** Exact reading of the floating-point results

    To compare a binary64 result with the real-number formula, a
    non-negative number [m * 2^e] is read as the integer [m * 2^(e+scale)]:
    its value in units of [2^-scale], fine enough for every binary64
    exponent. *)

Definition scale : Z := 1100.

(** The value of a non-negative number, in units of [2^-scale]. *)
Definition SFscaled (x : spec_float) : Z :=
  match x with
  | S754_finite false m e => Z.pos m * 2 ^ (e + scale)
  | _ => 0
  end.

(** [x] is [+0], or positive, below [2^k], with an exponent of at most
    [k - 53]. *)
Definition below (k : Z) (x : spec_float) : Prop :=
  match x with
  | S754_zero false => True
  | S754_finite false m e =>
      - scale <= e <= k - 53 /\ Z.pos m * 2 ^ (e + scale) < 2 ^ (k + scale)
  | _ => False
  end.

(** The table entries are checked in units of [2^-frac], which is enough
    for the products and keeps the numbers small. *)
Definition frac : Z := 64.

(** The product [c * float(x)] for a channel value [x]: it is below 256 and
    within [2^-30 / 1000] of [w * x / 1000], where [w] is the coefficient
    in thousandths. *)
Definition product_ok (c : float) (w x : Z) : bool :=
  match float_of_int x with
  | Ok fx =>
      match Prim2SF (c * fx) with
      | S754_zero false => w * x =? 0
      | S754_finite false m e =>
          let v := Z.pos m * 2 ^ (e + frac) in
          (- frac <=? e) && (e <=? 8 - 53) && (v <? 2 ^ (8 + frac))
          && (Z.abs (1000 * v - w * x * 2 ^ frac) <=? 2 ^ (frac - 30))
      | _ => false
      end
  | Raise _ => false
  end.

(** [product_ok] on every channel value 0..255. *)
Definition table_ok (c : float) (w : Z) : bool :=
  forallb (product_ok c w) (range 256).

(** The weighted sum [(wr*r + wg*g + wb*b) / 1000] of the formulas, in
    thousandths. *)
Definition milli (wr wg wb r g b : Z) : Z := wr * r + wg * g + wb * b.

(** [floor] of the real number [s / 1000]. *)
Definition floor_milli (s : Z) : Z := s / 1000.

(** A truncated binary64 weighted sum against the exact one, in
    thousandths: the floor, or one less at a whole number. *)
Definition truncates (v s : Z) : Prop :=
  (s mod 1000 <> 0 -> v = floor_milli s) /\
  (s mod 1000 = 0 -> v = floor_milli s \/ v = floor_milli s - 1).

(** The integer nearest to the real number [s / 1000], ties to even (as
    Python's [round]). *)
Definition round_milli (s : Z) : Z :=
  let q := s / 1000 in
  let t := s mod 1000 in
  if t <? 500 then q
  else if 500 <? t then q + 1
  else if Z.even q then q else q + 1.

(** A channel value: an integer in 0..255. *)
Definition channel (x : Z) : Prop := 0 <= x <= 255.

(** ** Further notions *)

(** The [name] of a member of [Filter]. *)
Definition Filter_name (f : Filter) : string :=
  match f with
  | GRAYSCALE => "GRAYSCALE"
  | SEPIA => "SEPIA"
  | WARMER => "WARMER"
  | COOLER => "COOLER"
  end.

(** One pixel function applied to what the pixel map kept of the outcome
    of another, as two passes over an image do at each coordinate. *)
Definition and_then (f h : Z -> Z -> Z -> result pixel) (r g b : Z) :
    result pixel :=
  let? q := f r g b in
  let? q' := stored q in
  on_pixel h q'.

(** The gray levels [v] at which the binary64 sum
    [0.299 v + 0.587 v + 0.114 v] falls below [v]. *)
Definition darkened_levels : list Z :=
  [1; 2; 4; 8; 11; 13; 16; 22; 26; 27; 32; 39; 44; 51; 52; 54; 57; 59; 61;
   64; 78; 81; 88; 91; 95; 101; 102; 104; 108; 114; 115; 118; 122; 127; 128;
   143; 149; 156; 157; 162; 169; 175; 176; 182; 183; 190; 195; 202; 203;
   204; 208; 209; 216; 223; 225; 228; 230; 235; 236; 239; 241; 244; 249;
   251; 254].

Definition darkens (v : Z) : bool := existsb (Z.eqb v) darkened_levels.

(** What grayscale makes of the gray level [v]. *)
Definition gray_of_gray (v : Z) : Z := if darkens v then v - 1 else v.

Definition gray_level_ok (v : Z) : bool :=
  match grayscale_conversion_func v v v with
  | Ok (c1, c2, c3) =>
      (c1 =? gray_of_gray v) && (c2 =? gray_of_gray v) && (c3 =? gray_of_gray v)
  | Raise _ => false
  end.

(** A picture of one pixel, to tell the four pixel-map functions apart. *)
Definition probe : image := Image {[ (0, 0) := (100, 150, 200) ]} [].

(** ** The pipeline *)

(** An opened image file: its [size] and the pixels behind
    [working_image.load()]. *)
Record picture : Type := Picture {
  width_of : Z;
  height_of : Z;
  pixel_data : gmap (Z * Z) pixel
}.

(** A picture with a pixel of channel values at every coordinate of its
    size. *)
Definition eight_bit (pic : picture) : Prop :=
  forall x y, 0 <= x < width_of pic -> 0 <= y < height_of pic ->
    exists r g b, pixel_data pic !! (x, y) = Some (r, g, b) /\
                  channel r /\ channel g /\ channel b.

(** The calls to the image library that returned, oldest first. *)
Inductive io_event : Type :=
| Opened (name : string)
| Saved (name format : string) (pic : picture)
| Shown (pic : picture).

Section Pipeline.

(* The image library is a parameter of the script: what [Image.open] gives
   for a file name, and how [save] to a file name ends. *)
Variable Image_open : string -> result picture.
Variable Image_save : string -> string -> picture -> result unit.

Definition apply_filter (input_img_name output_img_name : string)
    (filter_name : Filter) (show_result : bool) (log : list io_event) :
    result unit * list io_event :=
  match Image_open input_img_name with
  | Raise e => (Raise e, log)
  | Ok working_image =>
      let log := log ++ [Opened input_img_name] in
      let pixel_map := pixel_data working_image in
      let width := width_of working_image in
      let height := height_of working_image in
      match function_for_filter filter_name width height (Image pixel_map []) with
      | (Raise e, _) => (Raise e, log)
      | (Ok _, st) =>
          let working_image := Picture width height (pixels st) in
          match Image_save output_img_name "png" working_image with
          | Raise e => (Raise e, log)
          | Ok _ =>
              let log := log ++ [Saved output_img_name "png" working_image] in
              if show_result then (Ok tt, log ++ [Shown working_image])
              else (Ok tt, log)
          end
      end
  end.

End Pipeline.

(** * Properties *)

(** ** Warmer and cooler *)

(** C4: on every integer triple, warmer returns exactly (r+15, g, b-15)
    and cooler exactly (r-15, g, b+15); nothing is clamped, so warmer on
    (250,0,0) has red channel 265 and cooler on (10,10,10) red channel -5. *)
Theorem warmer_cooler_exact (r g b : Z) :
  warmer_conversion_func r g b = Ok (r + 15, g, b - 15) /\
  cooler_conversion_func r g b = Ok (r - 15, g, b + 15) /\
  warmer_conversion_func 250 0 0 = Ok (265, 0, -15) /\
  cooler_conversion_func 10 10 10 = Ok (-5, 10, 25).
Proof.
  unfold warmer_conversion_func, cooler_conversion_func, int_of_int.
  repeat split.
Qed.

(** C10: warmer and cooler undo each other on every integer triple. *)
Theorem warmer_cooler_inverse (r g b : Z) :
  result_bind (warmer_conversion_func r g b) (on_pixel cooler_conversion_func)
    = Ok (r, g, b) /\
  result_bind (cooler_conversion_func r g b) (on_pixel warmer_conversion_func)
    = Ok (r, g, b).
Proof.
  unfold warmer_conversion_func, cooler_conversion_func, int_of_int; simpl.
  split; do 2 f_equal; try f_equal; lia.
Qed.

(** ** The transformer *)

Lemma for_each_skip {A} (xs : list A) (body : A -> M unit) (st : image) :
  (forall x st', body x st' = (Ok tt, st')) ->
  for_each xs body st = (Ok tt, st).
Proof.
  intros Hbody. induction xs as [|x xs IH]; simpl; [reflexivity|].
  unfold bind. rewrite Hbody. exact IH.
Qed.

Lemma for_each_app {A} (xs ys : list A) (body : A -> M unit) (st : image) :
  for_each (xs ++ ys) body st
  = (let* _ := for_each xs body in for_each ys body) st.
Proof.
  revert st. induction xs as [|x xs IH]; intros st; simpl; [reflexivity|].
  unfold bind. destruct (body x st) as [[[]|e] st1]; [|reflexivity].
  rewrite IH. reflexivity.
Qed.

(** The nested loops visit [coords width height], in that order. *)
Lemma transform_pixels_coords (width height : Z) f (st : image) :
  transform_pixels width height f st = transform_coords (coords width height) f st.
Proof.
  unfold transform_pixels, transform_coords, coords.
  generalize (range width) as xs. intros xs. revert st.
  induction xs as [|i xs IH]; intros st; [reflexivity|].
  change (for_each (i :: xs) ?b st) with ((let* _ := b i in for_each xs b) st).
  rewrite bind_cons, for_each_app. unfold bind at 1 2.
  assert (Hrow : forall st0,
    for_each (range height) (fun j => transform_pixel f i j) st0
    = for_each ((fun j => (i, j)) <$> range height)
        (fun c => transform_pixel f c.1 c.2) st0).
  { intros st0. generalize (range height) as ys. intros ys. revert st0.
    induction ys as [|j ys IHy]; intros st0; [reflexivity|].
    simpl. unfold bind. destruct (transform_pixel f i j st0) as [[[]|e] st1];
      [apply IHy|reflexivity]. }
  rewrite Hrow.
  destruct (for_each _ _ st) as [[[]|e] st1]; [apply IH|reflexivity].
Qed.

Lemma elem_of_coords (width height : Z) (c : Z * Z) :
  c ∈ coords width height <-> (0 <= c.1 < width /\ 0 <= c.2 < height).
Proof.
  unfold coords, range. rewrite list_elem_of_bind. split.
  - intros (i & Hc & Hi). apply list_elem_of_fmap in Hc as (j & -> & Hj).
    apply elem_of_seqZ in Hi. apply elem_of_seqZ in Hj. simpl. lia.
  - intros [Hx Hy]. exists c.1. split.
    + apply list_elem_of_fmap. exists c.2. split; [by destruct c|].
      apply elem_of_seqZ. lia.
    + apply elem_of_seqZ. lia.
Qed.

Lemma NoDup_coords (width height : Z) : NoDup (coords width height).
Proof.
  unfold coords, range. apply NoDup_bind.
  - intros i1 i2 c _ _ H1 H2.
    apply list_elem_of_fmap in H1 as (j1 & -> & _).
    apply list_elem_of_fmap in H2 as (j2 & Heq & _). congruence.
  - intros i _. apply NoDup_fmap; [|apply NoDup_seqZ]. intros j1 j2. congruence.
  - apply NoDup_seqZ.
Qed.

Lemma flat_map_agree {A B} (f g : A -> list B) (l : list A) :
  (forall a, In a l -> f a = g a) -> flat_map f l = flat_map g l.
Proof.
  induction l as [|a l IH]; intros Hfg; simpl; [reflexivity|].
  rewrite (Hfg a) by (by left). f_equal. apply IH.
  intros a' Ha'. apply Hfg. by right.
Qed.

Lemma stored_Ok (r g b : Z) (q : pixel) :
  stored (r, g, b) = Ok q -> q = (clip8 r, clip8 g, clip8 b).
Proof.
  unfold stored. destruct (c_int r && c_int g && c_int b); congruence.
Qed.

Lemma clip8_channel (x : Z) : 0 <= x <= 255 -> clip8 x = x.
Proof. unfold clip8. lia. Qed.

Lemma c_int_small (x : Z) : -1000 <= x <= 1000 -> c_int x = true.
Proof.
  intros Hx. unfold c_int. change (2 ^ 31) with 2147483648.
  apply andb_true_iff. split; [apply Z.leb_le|apply Z.ltb_lt]; lia.
Qed.

(** A triple of channel values is kept as it is. *)
Lemma stored_channel (r g b : Z) :
  0 <= r <= 255 -> 0 <= g <= 255 -> 0 <= b <= 255 ->
  stored (r, g, b) = Ok (r, g, b).
Proof.
  intros Hr Hg Hb. unfold stored.
  rewrite !c_int_small by lia. simpl. by rewrite !clip8_channel.
Qed.

(** A triple of small integers is kept, each channel clipped. *)
Lemma stored_small (r g b : Z) :
  (-1000 <= r <= 1000 /\ -1000 <= g <= 1000 /\ -1000 <= b <= 1000) ->
  stored (r, g, b) = Ok (clip8 r, clip8 g, clip8 b).
Proof.
  intros (Hr & Hg & Hb). unfold stored.
  by rewrite !c_int_small by lia.
Qed.

Lemma conversion_intro f pm (c : Z * Z) (r g b : Z) (q q' : pixel) :
  pm !! c = Some (r, g, b) -> f r g b = Ok q -> stored q = Ok q' ->
  conversion f pm c = Some (q, q').
Proof. intros Hpm Hf Hq. unfold conversion. by rewrite Hpm, Hf, Hq. Qed.

Lemma converted_intro f pm (c : Z * Z) (r g b : Z) (q q' : pixel) :
  pm !! c = Some (r, g, b) -> f r g b = Ok q -> stored q = Ok q' ->
  converted f pm c = Some q'.
Proof.
  intros Hpm Hf Hq. unfold converted.
  by rewrite (conversion_intro f pm c r g b q q').
Qed.

Lemma transform_pixel_run f (i j : Z) (st : image) (q q' : pixel) :
  conversion f (pixels st) (i, j) = Some (q, q') ->
  transform_pixel f i j st
  = (Ok tt, Image (<[(i, j) := q']> (pixels st))
                  (trace st ++ [Read i j; Write i j q])).
Proof.
  intros Hc. unfold conversion in Hc.
  destruct (pixels st !! (i, j)) as [[[r g] b]|] eqn:Hpm; [|discriminate].
  destruct (f r g b) as [p|e] eqn:Hf; [|discriminate].
  destruct (stored p) as [p'|e] eqn:Hp; [|discriminate].
  injection Hc as -> ->.
  unfold transform_pixel, bind, getitem, setitem, lift.
  rewrite Hpm, Hf. cbn [pixels trace]. rewrite Hpm, Hp.
  rewrite <- app_assoc. reflexivity.
Qed.

Lemma conversion_insert_ne f pm (c c' : Z * Z) (q : pixel) :
  c <> c' -> conversion f (<[c := q]> pm) c' = conversion f pm c'.
Proof.
  intros Hne. unfold conversion. rewrite lookup_insert_ne by exact Hne. reflexivity.
Qed.

Lemma converted_insert_ne f pm (c c' : Z * Z) (q : pixel) :
  c <> c' -> converted f (<[c := q]> pm) c' = converted f pm c'.
Proof.
  intros Hne. unfold converted. by rewrite conversion_insert_ne.
Qed.

(** Running the loop body over distinct coordinates that all hold a
    convertible pixel: the outcome, the log and the final map. *)
Lemma transform_coords_run f (cs : list (Z * Z)) :
  NoDup cs ->
  forall st : image,
  (forall c, c ∈ cs -> is_Some (converted f (pixels st) c)) ->
  exists pm' : gmap (Z * Z) pixel,
    transform_coords cs f st
    = (Ok tt, Image pm' (trace st ++ flat_map (step_trace f (pixels st)) cs)) /\
    forall c, pm' !! c
              = if decide (c ∈ cs) then converted f (pixels st) c
                else pixels st !! c.
Proof.
  induction 1 as [|c cs Hnin Hnd IH]; intros st Hall.
  - exists (pixels st). split.
    + simpl. rewrite app_nil_r. destruct st; reflexivity.
    + intros c. rewrite decide_False; [reflexivity|apply not_elem_of_nil].
  - destruct (Hall c) as [q' Hq']; [left|].
    assert (Hconv : exists q, conversion f (pixels st) c = Some (q, q')).
    { unfold converted in Hq'.
      destruct (conversion f (pixels st) c) as [[q0 q1]|]; [|discriminate].
      injection Hq' as <-. by exists q0. }
    destruct Hconv as [q Hq].
    unfold transform_coords in *. simpl for_each. unfold bind.
    destruct c as [i j]. simpl fst; simpl snd.
    rewrite (transform_pixel_run f i j st q q' Hq).
    set (st1 := Image _ _).
    destruct (IH st1) as (pm' & Hrun & Hpm').
    { intros c' Hc'. simpl. rewrite converted_insert_ne.
      - apply Hall. by right.
      - intros <-. contradiction. }
    exists pm'. split.
    + rewrite Hrun. simpl. unfold step_trace at 2. rewrite Hq. simpl.
      rewrite <- app_assoc. simpl. do 2 f_equal.
      change (?x :: ?y :: ?l) with ([x; y] ++ l). do 2 f_equal.
      apply flat_map_agree. intros c' Hc'. unfold step_trace.
      rewrite conversion_insert_ne; [reflexivity|].
      intros <-. apply Hnin. by apply list_elem_of_In.
    + intros c'. rewrite Hpm'. simpl.
      destruct (decide (c' = (i, j))) as [->|Hne].
      * rewrite decide_False by exact Hnin.
        rewrite decide_True by left.
        rewrite lookup_insert_eq. by rewrite Hq'.
      * destruct (decide (c' ∈ cs)) as [Hin|Hout].
        -- rewrite decide_True by (by right).
           apply converted_insert_ne. congruence.
        -- rewrite decide_False.
           ++ apply lookup_insert_ne. congruence.
           ++ intros Hc'. apply elem_of_cons in Hc' as [?|?]; contradiction.
Qed.

(** C1, as stated, fails: the pixel map of an 8-bit image clips what is
    assigned to it.  On the 2x1 scenario the cooler function returns
    (-5,10,25) for the second pixel, and the pixel map then holds
    (0,10,25), not the function's value. *)
Lemma transform_pixels_unclipped_counterexample :
  ~ (forall (width height : Z) (f : Z -> Z -> Z -> result pixel) (st : image),
       (forall x y, 0 <= x < width -> 0 <= y < height ->
          exists r g b q, pixels st !! (x, y) = Some (r, g, b) /\ f r g b = Ok q) ->
       exists st' : image,
         transform_pixels width height f st = (Ok tt, st') /\
         forall x y r g b, 0 <= x < width -> 0 <= y < height ->
           pixels st !! (x, y) = Some (r, g, b) ->
           exists q, f r g b = Ok q /\ pixels st' !! (x, y) = Some q).
Proof.
  intros H.
  destruct (H 2 1 cooler_conversion_func (Image scenario_in []))
    as (st' & Hrun & Hval).
  - intros x y Hx Hy.
    assert (Hxy : (x = 0 \/ x = 1) /\ y = 0) by lia.
    destruct Hxy as [[-> | ->] ->].
    + exists 200, 150, 100, (185, 150, 115). split; reflexivity.
    + exists 10, 10, 10, (-5, 10, 25). split; reflexivity.
  - destruct (Hval 1 0 10 10 10) as (q & Hq & Hst'); [lia|lia|reflexivity|].
    vm_compute in Hrun. injection Hrun as <-.
    vm_compute in Hq. injection Hq as <-.
    vm_compute in Hst'. discriminate Hst'.
Qed.

(** C1, amended: on a pixel map that holds a pixel at every coordinate of
    the width x height grid, with a conversion function that returns on
    each of them a triple of machine integers, [transform_pixels]
    completes; every coordinate of the grid then holds the function applied
    to the pixel it held originally, each channel clipped to 0..255, and
    the other coordinates are untouched; the accesses made are, coordinate
    by coordinate, one read followed by one write of that same coordinate;
    and visiting the grid in any other order gives the same final pixel
    map. *)
Theorem transform_pixels_correct (width height : Z)
    (f : Z -> Z -> Z -> result pixel) (st : image) :
  (forall x y, 0 <= x < width -> 0 <= y < height ->
     exists r g b q q',
       pixels st !! (x, y) = Some (r, g, b) /\ f r g b = Ok q /\
       stored q = Ok q') ->
  exists st' : image,
    transform_pixels width height f st = (Ok tt, st') /\
    (forall x y r g b, 0 <= x < width -> 0 <= y < height ->
       pixels st !! (x, y) = Some (r, g, b) ->
       exists r' g' b',
         f r g b = Ok (r', g', b') /\
         pixels st' !! (x, y) = Some (clip8 r', clip8 g', clip8 b')) /\
    (forall x y, ~ (0 <= x < width /\ 0 <= y < height) ->
       pixels st' !! (x, y) = pixels st !! (x, y)) /\
    trace st'
    = trace st ++ flat_map (step_trace f (pixels st)) (coords width height) /\
    (forall cs : list (Z * Z), cs ≡ₚ coords width height ->
       exists st'' : image,
         transform_coords cs f st = (Ok tt, st'') /\ pixels st'' = pixels st').
Proof.
  intros Hgrid.
  assert (Hall : forall cs : list (Z * Z), cs ≡ₚ coords width height ->
            forall c, c ∈ cs -> is_Some (converted f (pixels st) c)).
  { intros cs Hperm [x y] Hc. rewrite Hperm in Hc.
    apply elem_of_coords in Hc as [Hx Hy]. simpl in Hx, Hy.
    destruct (Hgrid x y Hx Hy) as (r & g & b & q & q' & Hpm & Hf & Hq).
    exists q'. by apply (converted_intro f _ _ r g b q q'). }
  destruct (transform_coords_run f (coords width height) (NoDup_coords _ _) st)
    as (pm' & Hrun & Hpm'); [apply Hall; reflexivity|].
  eexists. split; [rewrite transform_pixels_coords; exact Hrun|].
  cbn [pixels trace]. repeat split.
  - intros x y r g b Hx Hy Hpm. rewrite Hpm'.
    rewrite decide_True by (apply elem_of_coords; simpl; lia).
    destruct (Hgrid x y Hx Hy) as (r0 & g0 & b0 & q & q' & Hpm2 & Hf & Hq).
    assert (Heq : (r0, g0, b0) = (r, g, b)) by congruence.
    injection Heq as -> -> ->. destruct q as [[r' g'] b'].
    exists r', g', b'. split; [exact Hf|].
    rewrite (converted_intro f _ _ r g b (r', g', b') q' Hpm Hf Hq).
    by rewrite (stored_Ok r' g' b' q' Hq).
  - intros x y Hout. rewrite Hpm'.
    rewrite decide_False; [reflexivity|].
    intros Hc. apply elem_of_coords in Hc. simpl in Hc. lia.
  - intros cs Hperm.
    destruct (transform_coords_run f cs) with (st := st)
      as (pm'' & Hrun' & Hpm'').
    + rewrite Hperm. apply NoDup_coords.
    + apply Hall, Hperm.
    + eexists. split; [exact Hrun'|]. cbn [pixels].
      apply map_eq. intros c. rewrite Hpm', Hpm''.
      destruct (decide (c ∈ cs)) as [Hin|Hout].
      * rewrite decide_True; [reflexivity|]. by rewrite <- Hperm.
      * rewrite decide_False; [reflexivity|]. by rewrite <- Hperm.
Qed.

(** C8: with a width or a height of zero, [transform_pixels] returns
    normally and leaves the image as it was: the pixel map is unchanged and
    nothing is added to the access log (no read, no write). *)
Theorem transform_pixels_empty (width height : Z)
    (f : Z -> Z -> Z -> result pixel) (st : image) :
  width = 0 \/ height = 0 ->
  transform_pixels width height f st = (Ok tt, st).
Proof.
  intros [-> | ->]; unfold transform_pixels.
  - reflexivity.
  - apply for_each_skip. intros i st'. reflexivity.
Qed.

(** C6, as stated, fails: the run on the 2x1 image does not leave the
    buffer [(185,150,115), (-5,10,25)]. *)
Lemma cooler_scenario_counterexample :
  pixels (convert_to_cooler 2 1 (Image scenario_in [])).2 <> scenario_unclipped.
Proof.
  intros H. apply (f_equal (fun pm : gmap (Z * Z) pixel => pm !! (1, 0))) in H.
  vm_compute in H. discriminate H.
Qed.

(** C6, amended: the cooler filter run by the transformer on the 2x1 image
    [(200,150,100), (10,10,10)] assigns (185,150,115) and (-5,10,25), the
    cooler function not clamping its result, and the 8-bit pixel map then
    holds [(185,150,115), (0,10,25)]: the red channel of the second pixel
    is kept as 0. *)
Theorem cooler_scenario :
  convert_to_cooler 2 1 (Image scenario_in [])
  = (Ok tt, Image scenario_out
              [Read 0 0; Write 0 0 (185, 150, 115);
               Read 1 0; Write 1 0 (-5, 10, 25)]) /\
  cooler_conversion_func 10 10 10 = Ok (-5, 10, 25) /\
  scenario_out !! (0, 0) = Some (185, 150, 115) /\
  scenario_out !! (1, 0) = Some (0, 10, 25) /\
  dom scenario_out = dom scenario_in.
Proof.
  repeat split; vm_compute; reflexivity.
Qed.

Lemma transform_pixels_correct_witness :
  exists st' : image,
    transform_pixels 2 1 cooler_conversion_func (Image scenario_in [])
    = (Ok tt, st') /\
    pixels st' !! (1, 0) = Some (0, 10, 25).
Proof.
  destruct (transform_pixels_correct 2 1 cooler_conversion_func
              (Image scenario_in []))
    as (st' & Hrun & Hval & _).
  - intros x y Hx Hy.
    assert (Hxy : (x = 0 \/ x = 1) /\ y = 0) by lia.
    destruct Hxy as [[-> | ->] ->].
    + exists 200, 150, 100, (185, 150, 115), (185, 150, 115).
      repeat split; reflexivity.
    + exists 10, 10, 10, (-5, 10, 25), (0, 10, 25).
      repeat split; reflexivity.
  - exists st'. split; [exact Hrun|].
    destruct (Hval 1 0 10 10 10) as (r' & g' & b' & Hq & Hst');
      [lia|lia|reflexivity|].
    rewrite Hst'. unfold cooler_conversion_func, int_of_int in Hq.
    injection Hq as <- <- <-. reflexivity.
Defined.

Lemma transform_pixels_empty_witness :
  transform_pixels 0 5 warmer_conversion_func (Image scenario_in [])
  = (Ok tt, Image scenario_in []).
Proof.
  apply (transform_pixels_empty 0 5 warmer_conversion_func (Image scenario_in [])).
  left. reflexivity.
Defined.

(** ** The registry *)

Lemma Filter_getitem_miss (name : string) :
  (forall n, In n selector_names -> name <> upper n) ->
  Filter_getitem name = Raise (KeyError name).
Proof.
  intros Hmiss. unfold Filter_getitem.
  repeat match goal with
  | |- context [String.eqb name ?s] =>
      destruct (String.eqb_spec name s) as [Heq|_];
      [exfalso; revert Heq; first
         [ apply (Hmiss "grayscale"%string); simpl; tauto
         | apply (Hmiss "sepia"%string); simpl; tauto
         | apply (Hmiss "warmer"%string); simpl; tauto
         | apply (Hmiss "cooler"%string); simpl; tauto ]|]
  end.
  reflexivity.
Qed.

(** The four selector names are strings of ASCII characters. *)
Lemma selector_names_ascii (name : string) :
  In name selector_names -> is_ascii name = true.
Proof.
  simpl. intros [<-|[<-|[<-|[<-|[]]]]]; reflexivity.
Qed.

Lemma upper_long_s_ascii : ascii_case upper_long_s.
Proof.
  intros s Hs. unfold upper_long_s.
  destruct (String.eqb_spec s long_s_sepia) as [->|_]; [|reflexivity].
  vm_compute in Hs. discriminate Hs.
Qed.

(** C5: a selector resolves by its upper-cased spelling alone, whatever
    [str.upper] does outside ASCII.  A string whose upper-casing is that of
    one of the four names resolves to the function that name resolves to
    (so "GRAYSCALE", "grayscale" and "Grayscale" all give
    [convert_to_grayscale]); any other string, "blur" for one, makes the
    lookup fail and yields no function.  The failure is Python's
    [KeyError] on the enumeration, the error named InvalidFilterSelector
    in the design. *)
Theorem resolve_case_insensitive (str_upper : string -> string) (s : string) :
  ascii_case str_upper ->
  (forall name, In name selector_names -> str_upper s = str_upper name ->
     exists f, resolve str_upper name = Ok f /\ resolve str_upper s = Ok f) /\
  ((forall name, In name selector_names -> str_upper s <> str_upper name) ->
     resolve str_upper s = Raise (KeyError (str_upper s))) /\
  resolve str_upper "GRAYSCALE" = Ok convert_to_grayscale /\
  resolve str_upper "grayscale" = Ok convert_to_grayscale /\
  resolve str_upper "Grayscale" = Ok convert_to_grayscale /\
  resolve str_upper "sepia" = Ok convert_to_sepia /\
  resolve str_upper "warmer" = Ok convert_to_warmer /\
  resolve str_upper "cooler" = Ok convert_to_cooler /\
  resolve str_upper "blur" = Raise (KeyError "BLUR").
Proof.
  intros Hup. split; [|split].
  - intros name Hin Heq. unfold resolve, filter_from_string_via. rewrite Heq.
    rewrite (Hup name (selector_names_ascii name Hin)).
    simpl in Hin.
    destruct Hin as [<-|[<-|[<-|[<-|[]]]]]; eexists; split; reflexivity.
  - intros Hmiss. unfold resolve, filter_from_string_via. cbv zeta.
    rewrite Filter_getitem_miss; [reflexivity|].
    intros n Hn. rewrite <- (Hup n (selector_names_ascii n Hn)). by apply Hmiss.
  - unfold resolve, filter_from_string_via.
    rewrite !Hup by reflexivity. repeat split.
Qed.

Lemma resolve_case_insensitive_witness :
  (exists f, resolve upper_long_s "sepia" = Ok f /\
             resolve upper_long_s long_s_sepia = Ok f) /\
  resolve upper_long_s "blur" = Raise (KeyError (upper_long_s "blur")).
Proof.
  split.
  - apply (proj1 (resolve_case_insensitive upper_long_s long_s_sepia
                    upper_long_s_ascii) "sepia"%string).
    + simpl. tauto.
    + reflexivity.
  - apply (proj1 (proj2 (resolve_case_insensitive upper_long_s "blur"
                           upper_long_s_ascii))).
    intros name Hin. simpl in Hin.
    destruct Hin as [<-|[<-|[<-|[<-|[]]]]]; discriminate.
Defined.

(** ** Binary64 rounding, from its specification *)

Lemma scale_bounds : 1074 <= scale <= 1100.
Proof. unfold scale. lia. Qed.

Lemma digits2_pos_bounds (p : positive) :
  2 ^ (Z.pos (digits2_pos p) - 1) <= Z.pos p < 2 ^ Z.pos (digits2_pos p).
Proof.
  induction p as [p IH|p IH|]; simpl digits2_pos.
  - rewrite Pos2Z.inj_succ.
    replace (Z.succ (Z.pos (digits2_pos p)) - 1) with (Z.succ (Z.pos (digits2_pos p) - 1)) by lia.
    rewrite !Z.pow_succ_r by lia. lia.
  - rewrite Pos2Z.inj_succ.
    replace (Z.succ (Z.pos (digits2_pos p)) - 1) with (Z.succ (Z.pos (digits2_pos p) - 1)) by lia.
    rewrite !Z.pow_succ_r by lia. lia.
  - simpl. lia.
Qed.

(** A positive mantissa below [2^b] at exponent [a] has at most [b - a] digits. *)
Lemma Zdigits2_le (m a b : Z) :
  0 < m -> 0 <= a -> m * 2 ^ a < 2 ^ b -> Zdigits2 m <= b - a.
Proof.
  intros Hm Ha Hlt. destruct m as [|p|p]; try lia. simpl.
  pose proof (digits2_pos_bounds p) as [Hlo _].
  set (d := Z.pos (digits2_pos p)) in *.
  destruct (Z.le_gt_cases d (b - a)) as [|Hgt]; [assumption|exfalso].
  assert (Hpow : 2 ^ (b - a) <= 2 ^ (d - 1)) by (apply Z.pow_le_mono_r; lia).
  assert (0 < 2 ^ a) by (apply Z.pow_pos_nonneg; lia).
  destruct (Z.le_gt_cases a b) as [Hab|Hab].
  - replace b with ((b - a) + a) in Hlt by lia.
    rewrite Z.pow_add_r in Hlt by lia. nia.
  - assert (2 ^ b <= 2 ^ a) by (apply Z.pow_le_mono_r; lia). nia.
Qed.

Lemma shr_m_shr_1 (mrs : shr_record) :
  0 <= shr_m mrs -> shr_m (shr_1 mrs) = shr_m mrs / 2.
Proof.
  destruct mrs as [m r s]. cbn [shr_m]. intros Hm.
  destruct m as [|[p|p|]|p]; cbn [shr_1 shr_m]; try lia.
  - reflexivity.
  - apply Z.div_unique with 1; lia.
  - apply Z.div_unique with 0; lia.
  - reflexivity.
Qed.

Lemma shr_m_iter (p : positive) (mrs : shr_record) :
  0 <= shr_m mrs ->
  shr_m (SpecFloat.iter_pos shr_1 p mrs) = shr_m mrs / 2 ^ Z.pos p.
Proof.
  revert mrs. induction p as [p IH|p IH|]; intros mrs Hm.
  - change (SpecFloat.iter_pos shr_1 p~1 mrs)
      with (SpecFloat.iter_pos shr_1 p (SpecFloat.iter_pos shr_1 p (shr_1 mrs))).
    assert (H1 : 0 <= shr_m (shr_1 mrs)).
    { rewrite shr_m_shr_1 by assumption. apply Z.div_pos; lia. }
    assert (H2 : 0 <= shr_m (SpecFloat.iter_pos shr_1 p (shr_1 mrs))).
    { rewrite IH by assumption. apply Z.div_pos; [lia|]. apply Z.pow_pos_nonneg; lia. }
    rewrite (IH _ H2), (IH _ H1), shr_m_shr_1 by assumption.
    rewrite !Z.div_div by (try apply Z.pow_pos_nonneg; lia).
    f_equal. replace (Z.pos p~1) with (1 + Z.pos p + Z.pos p) by lia.
    rewrite !Z.pow_add_r by lia. rewrite Z.pow_1_r. lia.
  - change (SpecFloat.iter_pos shr_1 p~0 mrs)
      with (SpecFloat.iter_pos shr_1 p (SpecFloat.iter_pos shr_1 p mrs)).
    assert (H2 : 0 <= shr_m (SpecFloat.iter_pos shr_1 p mrs)).
    { rewrite IH by assumption. apply Z.div_pos; [lia|]. apply Z.pow_pos_nonneg; lia. }
    rewrite (IH _ H2), (IH _ Hm).
    rewrite !Z.div_div by (try apply Z.pow_pos_nonneg; lia).
    f_equal. replace (Z.pos p~0) with (Z.pos p + Z.pos p) by lia.
    rewrite Z.pow_add_r by lia. reflexivity.
  - change (SpecFloat.iter_pos shr_1 1 mrs) with (shr_1 mrs).
    rewrite shr_m_shr_1 by assumption. reflexivity.
Qed.

Lemma shr_m_of_loc (m : Z) (l : location) : shr_m (shr_record_of_loc m l) = m.
Proof. destruct l as [|[]]; reflexivity. Qed.

(** [shr_fexp] shifts a non-negative mantissa right by the number of bits
    that brings its exponent up to [fexp]: the mantissa is divided, rounding
    down. *)
Lemma shr_fexp_spec (m e : Z) (l : location) :
  0 <= m ->
  exists mrs n,
    shr_fexp prec emax m e l = (mrs, e + n) /\
    n = Z.max 0 (fexp prec emax (Zdigits2 m + e) - e) /\
    shr_m mrs = m / 2 ^ n.
Proof.
  intros Hm. unfold shr_fexp, shr.
  destruct (fexp prec emax (Zdigits2 m + e) - e) as [|p|p] eqn:Hn.
  - exists (shr_record_of_loc m l), 0. rewrite Z.add_0_r, shr_m_of_loc, Z.div_1_r.
    repeat split.
  - exists (SpecFloat.iter_pos shr_1 p (shr_record_of_loc m l)), (Z.pos p).
    repeat split; try lia.
    rewrite shr_m_iter, shr_m_of_loc; [reflexivity|]. by rewrite shr_m_of_loc.
  - exists (shr_record_of_loc m l), 0. rewrite Z.add_0_r, shr_m_of_loc, Z.div_1_r.
    repeat split; lia.
Qed.

Lemma round_nearest_even_cases (m : Z) (l : location) :
  round_nearest_even m l = m \/ round_nearest_even m l = m + 1.
Proof.
  destruct l as [|[]]; simpl; auto. destruct (Z.even m); auto.
Qed.

(** Dividing a mantissa by [2^n] while raising its exponent by [n] loses
    less than one unit of the new exponent. *)
Lemma shift_bracket (m n a : Z) :
  0 <= m -> 0 <= n -> 0 <= a ->
  (m / 2 ^ n) * 2 ^ (a + n) <= m * 2 ^ a < (m / 2 ^ n + 1) * 2 ^ (a + n).
Proof.
  intros Hm Hn Ha. rewrite Z.pow_add_r by lia.
  assert (Hp : 0 < 2 ^ n) by (apply Z.pow_pos_nonneg; lia).
  assert (Hq : 0 < 2 ^ a) by (apply Z.pow_pos_nonneg; lia).
  pose proof (Z.div_mod m (2 ^ n) ltac:(lia)) as Hdm.
  pose proof (Z.mod_pos_bound m (2 ^ n) Hp) as Hmod.
  set (q := m / 2 ^ n) in *. set (r := m mod 2 ^ n) in *.
  set (P := 2 ^ n) in *. set (Q := 2 ^ a) in *.
  split; nia.
Qed.

Lemma fexp_le (z k : Z) : -1000 <= k -> z <= k -> fexp prec emax z <= k - 53.
Proof. unfold fexp, SpecFloat.emin, prec, emax. lia. Qed.

Lemma fexp_ge (z : Z) : -1074 <= fexp prec emax z.
Proof. unfold fexp, SpecFloat.emin, prec, emax. lia. Qed.

(** Rounding a positive mantissa that is below [2^k]: the outcome is a
    non-negative number below [2^(k+1)], within [2^(k-51)] of the input. *)
Lemma binary_round_aux_bound (m : positive) (e k : Z) :
  - scale <= e <= k - 53 -> -1000 <= k <= 1000 ->
  Z.pos m * 2 ^ (e + scale) < 2 ^ (k + scale) ->
  below (k + 1) (binary_round_aux prec emax false (Z.pos m) e loc_Exact) /\
  Z.abs (SFscaled (binary_round_aux prec emax false (Z.pos m) e loc_Exact)
         - Z.pos m * 2 ^ (e + scale)) <= 2 ^ (k - 51 + scale).
Proof.
  intros He Hk Hlt. pose proof scale_bounds as Hs.
  unfold binary_round_aux.
  destruct (shr_fexp_spec (Z.pos m) e loc_Exact) as (mrs1 & n1 & -> & Hn1 & Hm1); [lia|].
  set (m1 := round_nearest_even (shr_m mrs1) (loc_of_shr_record mrs1)).
  assert (Hd : Zdigits2 (Z.pos m) + e <= k).
  { pose proof (Zdigits2_le (Z.pos m) (e + scale) (k + scale)). lia. }
  assert (He1 : e <= e + n1 <= k - 53).
  { pose proof (fexp_le _ k ltac:(lia) Hd). lia. }
  assert (Hn1' : 0 <= n1) by lia.
  pose proof (shift_bracket (Z.pos m) n1 (e + scale) ltac:(lia) Hn1' ltac:(lia)) as Hb1.
  rewrite <- Hm1 in Hb1.
  assert (Hm1' : 0 <= shr_m mrs1).
  { rewrite Hm1. apply Z.div_pos; [lia|]. apply Z.pow_pos_nonneg; lia. }
  assert (Hr : m1 = shr_m mrs1 \/ m1 = shr_m mrs1 + 1)
    by apply round_nearest_even_cases.
  destruct (shr_fexp_spec m1 (e + n1) loc_Exact) as (mrs2 & n2 & -> & Hn2 & Hm2); [lia|].
  replace (e + scale + n1) with (e + n1 + scale) in Hb1 by lia.
  set (a1 := e + n1 + scale) in *.
  assert (Hpa1 : 0 < 2 ^ a1) by (apply Z.pow_pos_nonneg; lia).
  assert (Hpa1k : 2 ^ a1 <= 2 ^ (k - 53 + scale)) by (apply Z.pow_le_mono_r; lia).
  assert (Hk1 : 2 ^ (k + 1 + scale) = 2 ^ (k - 53 + scale) * 2 ^ 54).
  { rewrite <- Z.pow_add_r by lia. f_equal. lia. }
  assert (Hk0 : 2 ^ (k + scale) = 2 ^ (k - 53 + scale) * 2 ^ 53).
  { rewrite <- Z.pow_add_r by lia. f_equal. lia. }
  assert (Hk2 : 2 ^ (k - 51 + scale) = 2 ^ (k - 53 + scale) * 4).
  { change 4 with (2 ^ 2). rewrite <- Z.pow_add_r by lia. f_equal. lia. }
  assert (Hk3 : 2 ^ (k - 52 + scale) = 2 ^ (k - 53 + scale) * 2).
  { change 2 with (2 ^ 1) at 3. rewrite <- Z.pow_add_r by lia. f_equal. lia. }
  assert (Hpk : 0 < 2 ^ (k - 53 + scale)) by (apply Z.pow_pos_nonneg; lia).
  assert (Hm1a : shr_m mrs1 * 2 ^ a1 <= m1 * 2 ^ a1 <= shr_m mrs1 * 2 ^ a1 + 2 ^ a1).
  { destruct Hr as [-> | ->]; lia. }
  assert (Hm1lt : m1 * 2 ^ a1 < 2 ^ (k + 1 + scale)).
  { change (2 ^ 53) with 9007199254740992 in Hk0.
    change (2 ^ 54) with 18014398509481984 in Hk1. lia. }
  assert (Hd1 : Zdigits2 m1 + (e + n1) <= k + 1).
  { destruct (Z.eq_dec m1 0) as [-> | Hnz]; [simpl; lia|].
    pose proof (Zdigits2_le m1 a1 (k + 1 + scale)). lia. }
  assert (He2 : e + n1 <= e + n1 + n2 <= k - 52).
  { pose proof (fexp_le _ (k + 1) ltac:(lia) Hd1). lia. }
  assert (Hn2' : 0 <= n2) by lia.
  pose proof (shift_bracket m1 n2 a1 ltac:(lia) Hn2' ltac:(lia)) as Hb2.
  rewrite <- Hm2 in Hb2. replace (a1 + n2) with (e + n1 + n2 + scale) in Hb2 by lia.
  set (a2 := e + n1 + n2 + scale) in *.
  assert (Hpa2 : 0 < 2 ^ a2) by (apply Z.pow_pos_nonneg; lia).
  assert (Hpa2k : 2 ^ a2 <= 2 ^ (k - 52 + scale)) by (apply Z.pow_le_mono_r; lia).
  assert (Hm2' : 0 <= shr_m mrs2).
  { rewrite Hm2. apply Z.div_pos; [lia|]. apply Z.pow_pos_nonneg; lia. }
  change (2 ^ 53) with 9007199254740992 in Hk0.
  change (2 ^ 54) with 18014398509481984 in Hk1.
  destruct (shr_m mrs2) as [|p|p] eqn:Hp; [| |lia].
  - simpl. split; [exact I|]. lia.
  - replace (e + n1 + n2 <=? emax - prec) with true
      by (symmetry; apply Z.leb_le; unfold emax, prec; lia).
    cbn [below SFscaled]. fold a2.
    replace (k + 1 - 53) with (k - 52) by lia.
    split; [split; lia|]. lia.
Qed.

Lemma Pos_iter_xO (m d : positive) :
  Z.pos (Pos.iter xO m d) = Z.pos m * 2 ^ Z.pos d.
Proof.
  induction d as [|d IH] using Pos.peano_ind.
  - simpl. lia.
  - rewrite Pos.iter_succ, Pos2Z.inj_xO, IH, Pos2Z.inj_succ, Z.pow_succ_r by lia. lia.
Qed.

(** [shl_align] lowers the exponent to the target, if that is lower, and
    keeps the value. *)
Lemma shl_align_spec (m : positive) (e e' : Z) :
  exists mz,
    shl_align m e e' = (mz, Z.min e e') /\
    Z.pos mz = Z.pos m * 2 ^ (e - Z.min e e').
Proof.
  unfold shl_align. destruct (e' - e) as [|d|d] eqn:Hd.
  - exists m. replace (Z.min e e') with e by lia.
    rewrite Z.sub_diag. split; [reflexivity|lia].
  - exists m. replace (Z.min e e') with e by lia.
    rewrite Z.sub_diag. split; [reflexivity|lia].
  - exists (Pos.iter xO m d). replace (Z.min e e') with e' by lia.
    split; [reflexivity|]. rewrite Pos_iter_xO. f_equal. f_equal. lia.
Qed.

Lemma binary_round_bound (m : positive) (e k : Z) :
  - scale <= e <= k - 53 -> -1000 <= k <= 1000 ->
  Z.pos m * 2 ^ (e + scale) < 2 ^ (k + scale) ->
  below (k + 1) (binary_round prec emax false m e) /\
  Z.abs (SFscaled (binary_round prec emax false m e)
         - Z.pos m * 2 ^ (e + scale)) <= 2 ^ (k - 51 + scale).
Proof.
  intros He Hk Hlt. pose proof scale_bounds as Hs. unfold binary_round.
  destruct (shl_align_spec m e (fexp prec emax (Z.pos (digits2_pos m) + e)))
    as (mz & -> & Hmz).
  pose proof (fexp_ge (Z.pos (digits2_pos m) + e)) as Hfe.
  set (ez := Z.min e _) in *.
  assert (Hval : Z.pos mz * 2 ^ (ez + scale) = Z.pos m * 2 ^ (e + scale)).
  { rewrite Hmz, <- Z.mul_assoc, <- Z.pow_add_r by lia. do 2 f_equal. lia. }
  rewrite <- Hval in *.
  apply binary_round_aux_bound; lia.
Qed.

(** Adding two non-negative numbers below [2^k]: the outcome is below
    [2^(k+2)] and within [2^(k-50)] of the exact sum. *)
Lemma SFadd_bound (x y : spec_float) (k : Z) :
  below k x -> below k y -> -1000 <= k <= 999 ->
  below (k + 2) (SFadd prec emax x y) /\
  Z.abs (SFscaled (SFadd prec emax x y) - (SFscaled x + SFscaled y))
    <= 2 ^ (k - 50 + scale).
Proof.
  intros Hx Hy Hk. pose proof scale_bounds as Hs.
  assert (Hpos : 0 <= 2 ^ (k - 50 + scale)) by (apply Z.pow_nonneg; lia).
  assert (Hmono : 2 ^ (k + scale) <= 2 ^ (k + 2 + scale))
    by (apply Z.pow_le_mono_r; lia).
  destruct x as [[|]| | |[|] mx ex], y as [[|]| | |[|] my ey];
    try contradiction; cbn [SFadd].
  - split; [exact I|]. simpl. lia.
  - split; [|simpl; rewrite Z.sub_diag; exact Hpos].
    destruct Hy as [Hey Hvy]. cbn [below]. split; lia.
  - split; [|simpl; rewrite Z.add_0_r, Z.sub_diag; exact Hpos].
    destruct Hx as [Hex Hvx]. cbn [below]. split; lia.
  - destruct Hx as [Hex Hvx], Hy as [Hey Hvy]. cbn [cond_Zopp SFscaled].
    destruct (shl_align_spec mx ex (Z.min ex ey)) as (ax & -> & Hax).
    destruct (shl_align_spec my ey (Z.min ex ey)) as (ay & -> & Hay).
    cbn [fst]. rewrite <- Pos2Z.inj_add. cbn [binary_normalize].
    set (ez := Z.min ex ey) in *.
    assert (Hez : ez <= ex /\ ez <= ey /\ (ez = ex \/ ez = ey))
      by (subst ez; lia).
    clearbody ez.
    replace (Z.min ex ez) with ez in Hax by lia.
    replace (Z.min ey ez) with ez in Hay by lia.
    assert (Hsum : Z.pos (ax + ay) * 2 ^ (ez + scale)
                   = Z.pos mx * 2 ^ (ex + scale) + Z.pos my * 2 ^ (ey + scale)).
    { rewrite Pos2Z.inj_add, Hax, Hay.
      replace (ex + scale) with ((ex - ez) + (ez + scale)) by lia.
      replace (ey + scale) with ((ey - ez) + (ez + scale)) by lia.
      rewrite (Z.pow_add_r 2 (ex - ez)), (Z.pow_add_r 2 (ey - ez)) by lia.
      ring. }
    rewrite <- Hsum.
    assert (Hk1 : 2 ^ (k + 1 + scale) = 2 * 2 ^ (k + scale)).
    { rewrite <- Z.pow_succ_r by lia. f_equal. lia. }
    replace (k + 2) with (k + 1 + 1) by lia.
    replace (k - 50) with (k + 1 - 51) by lia.
    apply binary_round_bound; lia.
Qed.

Lemma below_mono (k k' : Z) (x : spec_float) :
  k <= k' -> below k x -> below k' x.
Proof.
  intros Hk. pose proof scale_bounds as Hs.
  destruct x as [[|]| | |[|] m e]; simpl; try tauto.
  intros [He Hv]. split; [lia|].
  apply Z.lt_le_trans with (1 := Hv). apply Z.pow_le_mono_r; lia.
Qed.

Lemma SFscaled_nonneg (x : spec_float) : 0 <= SFscaled x.
Proof.
  destruct x as [[|]| | |[|] m e]; simpl; lia.
Qed.

(** ** Truncation and the weighted sums *)

(** [int()] of a non-negative number is the integer part of its value. *)
Lemma trunc_SF_scaled (k : Z) (x : spec_float) :
  below k x -> trunc_SF x = Ok (SFscaled x / 2 ^ scale).
Proof.
  pose proof scale_bounds as Hs.
  destruct x as [[|]| | |[|] m e]; simpl; try contradiction.
  - intros _. rewrite Z.div_0_l; [reflexivity|]. apply Z.pow_nonzero; lia.
  - intros [He _]. f_equal. destruct (Z.leb_spec 0 e) as [Hpos|Hneg].
    + rewrite Z.pow_add_r by lia.
      rewrite Z.mul_assoc, Z.div_mul; [reflexivity|]. apply Z.pow_nonzero; lia.
    + replace scale with (- e + (e + scale)) at 2 by lia.
      rewrite (Z.pow_add_r 2 (- e)) by lia.
      rewrite Z.div_mul_cancel_r; [reflexivity| |]; apply Z.pow_nonzero; lia.
Qed.

Lemma product_ok_spec (c : float) (w x : Z) :
  product_ok c w x = true ->
  exists fx,
    float_of_int x = Ok fx /\
    below 8 (Prim2SF (c * fx)) /\
    Z.abs (1000 * SFscaled (Prim2SF (c * fx)) - w * x * 2 ^ scale)
      <= 2 ^ (scale - 30).
Proof.
  unfold product_ok. pose proof scale_bounds as Hs.
  destruct (float_of_int x) as [fx|]; [|discriminate].
  intros Hok. exists fx. split; [reflexivity|].
  assert (Hpos : 0 <= 2 ^ (scale - 30)) by (apply Z.pow_nonneg; lia).
  destruct (Prim2SF (c * fx)) as [[|]| | |[|] m e]; try discriminate.
  - apply Z.eqb_eq in Hok. rewrite Hok. simpl. split; [exact I|lia].
  - cbv zeta in Hok.
    rewrite !andb_true_iff, !Z.leb_le, Z.ltb_lt in Hok.
    destruct Hok as [[[He1 He2] Hlt] Hnear]. unfold frac in *.
    set (T := 2 ^ (scale - 64)).
    assert (HT : 0 < T) by (apply Z.pow_pos_nonneg; lia).
    assert (E1 : 2 ^ (e + scale) = 2 ^ (e + 64) * T).
    { unfold T. rewrite <- Z.pow_add_r by lia. f_equal; lia. }
    assert (E2 : 2 ^ scale = 2 ^ 64 * T).
    { unfold T. rewrite <- Z.pow_add_r by lia. f_equal; lia. }
    assert (E3 : 2 ^ (scale - 30) = 2 ^ (64 - 30) * T).
    { unfold T. rewrite <- Z.pow_add_r by lia. f_equal; lia. }
    assert (E4 : 2 ^ (8 + scale) = 2 ^ (8 + 64) * T).
    { unfold T. rewrite <- Z.pow_add_r by lia. f_equal; lia. }
    cbn [below SFscaled]. rewrite E1, E2, E3, E4.
    set (v := Z.pos m * 2 ^ (e + 64)) in *.
    split; [split; [lia|]|].
    + rewrite Z.mul_assoc. apply Z.mul_lt_mono_pos_r; assumption.
    + replace (1000 * (Z.pos m * (2 ^ (e + 64) * T)) - w * x * (2 ^ 64 * T))
        with ((1000 * v - w * x * 2 ^ 64) * T) by (unfold v; ring).
      rewrite Z.abs_mul, (Z.abs_eq T) by lia.
      apply Z.mul_le_mono_nonneg_r; [lia|exact Hnear].
Qed.

Lemma table_ok_spec (c : float) (w x : Z) :
  table_ok c w = true -> channel x ->
  exists fx,
    float_of_int x = Ok fx /\
    below 8 (Prim2SF (c * fx)) /\
    Z.abs (1000 * SFscaled (Prim2SF (c * fx)) - w * x * 2 ^ scale)
      <= 2 ^ (scale - 30).
Proof.
  unfold table_ok, channel. intros Htab Hx.
  rewrite forallb_forall in Htab. apply product_ok_spec, Htab.
  apply list_elem_of_In, elem_of_seqZ. lia.
Qed.

(** Truncating a number that is within [2^-20 / 1000] of [s / 1000]: the
    floor of [s / 1000], except that at a whole [s / 1000] the result may
    be one less. *)
Lemma trunc_near_milli (v s : Z) :
  0 <= v -> 0 <= s ->
  Z.abs (1000 * v - s * 2 ^ scale) <= 2 ^ (scale - 20) ->
  0 <= v / 2 ^ scale /\
  (v / 2 ^ scale = s / 1000 \/
   (s mod 1000 = 0 /\ v / 2 ^ scale = s / 1000 - 1)).
Proof.
  intros Hv Hs Hnear. pose proof scale_bounds as Hsc.
  assert (HT : 2 ^ scale = 2 ^ (scale - 20) * 2 ^ 20).
  { rewrite <- Z.pow_add_r by lia. f_equal; lia. }
  change (2 ^ 20) with 1048576 in HT.
  assert (He : 0 < 2 ^ (scale - 20)) by (apply Z.pow_pos_nonneg; lia).
  set (T := 2 ^ scale) in *. set (eps := 2 ^ (scale - 20)) in *.
  assert (HTpos : 0 < T) by lia.
  pose proof (Z.div_mod v T ltac:(lia)) as Hdv.
  pose proof (Z.mod_pos_bound v T HTpos) as Hmv.
  pose proof (Z.div_mod s 1000 ltac:(lia)) as Hds.
  pose proof (Z.mod_pos_bound s 1000 ltac:(lia)) as Hms.
  set (c := v / T) in *. set (q := s / 1000) in *.
  set (t := s mod 1000) in *. set (u := v mod T) in *.
  assert (Hc0 : 0 <= c) by (apply Z.div_pos; lia).
  split; [exact Hc0|].
  assert (Hup : c <= q) by nia.
  assert (Hlo : q - 1 <= c) by nia.
  destruct (Z.eq_dec t 0) as [Ht|Ht].
  - destruct (Z.eq_dec c q); [left; assumption|right; split; lia].
  - left. assert (q <= c) by nia. lia.
Qed.

Section WeightedSum.

(* Three coefficients, as binary64 constants and in thousandths, whose
   products with the channel values have been checked. *)
Variables (cr cg cb : float) (wr wg wb : Z).
Hypothesis Tr : table_ok cr wr = true.
Hypothesis Tg : table_ok cg wg = true.
Hypothesis Tb : table_ok cb wb = true.
Hypothesis Hwr : 0 <= wr.
Hypothesis Hwg : 0 <= wg.
Hypothesis Hwb : 0 <= wb.

Variables r g b : Z.
Hypothesis Hr : channel r.
Hypothesis Hg : channel g.
Hypothesis Hb : channel b.

(** The sum the pixel functions compute in binary64 is within
    [2^-20 / 1000] of the exact weighted sum. *)
Lemma weighted_sum_bound :
  exists s : float,
    weighted_sum cr cg cb r g b = Ok s /\
    below 12 (Prim2SF s) /\
    Z.abs (1000 * SFscaled (Prim2SF s) - milli wr wg wb r g b * 2 ^ scale)
      <= 2 ^ (scale - 20).
Proof.
  pose proof scale_bounds as Hs.
  destruct (table_ok_spec cr wr r Tr Hr) as (fr & Efr & Br & Vr).
  destruct (table_ok_spec cg wg g Tg Hg) as (fg & Efg & Bg & Vg).
  destruct (table_ok_spec cb wb b Tb Hb) as (fb & Efb & Bb & Vb).
  unfold weighted_sum. rewrite Efr, Efg, Efb. cbn [result_bind].
  eexists. split; [reflexivity|].
  rewrite !add_spec. unfold SF64add.
  set (pr := Prim2SF (cr * fr)) in *. set (pg := Prim2SF (cg * fg)) in *.
  set (pb := Prim2SF (cb * fb)) in *.
  destruct (SFadd_bound pr pg 8 Br Bg ltac:(lia)) as [B1 V1].
  set (s1 := SFadd prec emax pr pg) in *.
  destruct (SFadd_bound s1 pb 10 B1 (below_mono 8 10 pb ltac:(lia) Bb) ltac:(lia))
    as [B2 V2].
  set (s2 := SFadd prec emax s1 pb) in *.
  split; [exact B2|].
  assert (H20 : 2 ^ (scale - 20) = 2 ^ (scale - 42) * 2 ^ 22).
  { rewrite <- Z.pow_add_r by lia. f_equal; lia. }
  assert (H30 : 2 ^ (scale - 30) = 2 ^ (scale - 42) * 2 ^ 12).
  { rewrite <- Z.pow_add_r by lia. f_equal; lia. }
  assert (H40 : 2 ^ (10 - 50 + scale) = 2 ^ (scale - 42) * 2 ^ 2).
  { rewrite <- Z.pow_add_r by lia. f_equal; lia. }
  assert (H42 : 2 ^ (8 - 50 + scale) = 2 ^ (scale - 42))
    by (f_equal; lia).
  assert (Hp : 0 < 2 ^ (scale - 42)) by (apply Z.pow_pos_nonneg; lia).
  change (2 ^ 22) with 4194304 in H20. change (2 ^ 12) with 4096 in H30.
  change (2 ^ 2) with 4 in H40.
  unfold milli. lia.
Qed.

(** One channel of a pixel function: the binary64 weighted sum, truncated,
    is the floor of the exact weighted sum, or one less where the exact sum
    is a whole number. *)
Lemma weighted_channel :
  exists (s : float) (v : Z),
    weighted_sum cr cg cb r g b = Ok s /\
    int_of_float s = Ok v /\
    0 <= v /\
    (v = floor_milli (milli wr wg wb r g b) \/
     (milli wr wg wb r g b mod 1000 = 0 /\
      v = floor_milli (milli wr wg wb r g b) - 1)).
Proof.
  destruct weighted_sum_bound as (s & Hs & Hbelow & Hnear).
  exists s, (SFscaled (Prim2SF s) / 2 ^ scale).
  split; [exact Hs|]. split.
  - unfold int_of_float. apply trunc_SF_scaled with (k := 12). exact Hbelow.
  - apply trunc_near_milli.
    + apply SFscaled_nonneg.
    + unfold milli, channel in *. nia.
    + exact Hnear.
Qed.

End WeightedSum.

Lemma table_gray_r : table_ok 0.299 299 = true.
Proof. vm_compute. reflexivity. Qed.
Lemma table_gray_g : table_ok 0.587 587 = true.
Proof. vm_compute. reflexivity. Qed.
Lemma table_gray_b : table_ok 0.114 114 = true.
Proof. vm_compute. reflexivity. Qed.

Lemma table_red_r : table_ok 0.393 393 = true.
Proof. vm_compute. reflexivity. Qed.
Lemma table_red_g : table_ok 0.769 769 = true.
Proof. vm_compute. reflexivity. Qed.
Lemma table_red_b : table_ok 0.189 189 = true.
Proof. vm_compute. reflexivity. Qed.

Lemma table_green_r : table_ok 0.349 349 = true.
Proof. vm_compute. reflexivity. Qed.
Lemma table_green_g : table_ok 0.686 686 = true.
Proof. vm_compute. reflexivity. Qed.
Lemma table_green_b : table_ok 0.168 168 = true.
Proof. vm_compute. reflexivity. Qed.

Lemma table_blue_r : table_ok 0.272 272 = true.
Proof. vm_compute. reflexivity. Qed.
Lemma table_blue_g : table_ok 0.534 534 = true.
Proof. vm_compute. reflexivity. Qed.
Lemma table_blue_b : table_ok 0.131 131 = true.
Proof. vm_compute. reflexivity. Qed.

(** ** Grayscale *)

(** What grayscale returns on a pixel of channel values. *)
Lemma grayscale_channels (r g b : Z) :
  channel r -> channel g -> channel b ->
  exists v : Z,
    grayscale_conversion_func r g b = Ok (v, v, v) /\
    0 <= v /\
    (v = floor_milli (milli 299 587 114 r g b) \/
     (milli 299 587 114 r g b mod 1000 = 0 /\
      v = floor_milli (milli 299 587 114 r g b) - 1)).
Proof.
  intros Hr Hg Hb.
  destruct (weighted_channel 0.299 0.587 0.114 299 587 114
              table_gray_r table_gray_g table_gray_b
              ltac:(lia) ltac:(lia) ltac:(lia) r g b Hr Hg Hb)
    as (s & v & Hs & Hv & Hv0 & Hfloor).
  exists v. split; [|split; assumption].
  unfold grayscale_conversion_func. rewrite Hs. cbn [result_bind].
  rewrite Hv. reflexivity.
Qed.

(** C2, as stated, fails: on the pixel (1,1,1) the exact weighted sum is 1,
    its floor is 1, but the binary64 sum is just below 1 and grayscale
    returns (0,0,0). *)
Lemma grayscale_floor_counterexample :
  ~ (forall r g b : Z, channel r -> channel g -> channel b ->
       grayscale_conversion_func r g b
       = Ok (floor_milli (milli 299 587 114 r g b),
             floor_milli (milli 299 587 114 r g b),
             floor_milli (milli 299 587 114 r g b))).
Proof.
  intros H. specialize (H 1 1 1).
  assert (Hc : channel 1) by (unfold channel; lia).
  specialize (H Hc Hc Hc). vm_compute in H. discriminate H.
Qed.

(** C2, amended: on a pixel of channel values grayscale returns three equal
    channels; their value is floor(0.299 r + 0.587 g + 0.114 b) whenever
    that weighted sum is not a whole number, and that whole number or one
    less when it is. *)
Theorem grayscale_floor (r g b : Z) :
  channel r -> channel g -> channel b ->
  exists v : Z,
    grayscale_conversion_func r g b = Ok (v, v, v) /\
    (milli 299 587 114 r g b mod 1000 <> 0 ->
     v = floor_milli (milli 299 587 114 r g b)) /\
    (milli 299 587 114 r g b mod 1000 = 0 ->
     v = floor_milli (milli 299 587 114 r g b) \/
     v = floor_milli (milli 299 587 114 r g b) - 1).
Proof.
  intros Hr Hg Hb.
  destruct (grayscale_channels r g b Hr Hg Hb) as (v & Hv & _ & Hfloor).
  exists v. split; [exact Hv|]. split; intros Hmod; destruct Hfloor; tauto.
Qed.

Lemma grayscale_floor_witness :
  exists v : Z,
    grayscale_conversion_func 10 20 30 = Ok (v, v, v) /\ v = 18.
Proof.
  destruct (grayscale_floor 10 20 30) as (v & Hv & Hfrac & _);
    [unfold channel; lia ..|].
  exists v. split; [exact Hv|]. apply Hfrac. vm_compute. discriminate.
Defined.

(** C9, as stated, fails: on the pixel (0,0,5) the weighted sum is 0.57,
    which rounds to 1, but grayscale returns (0,0,0). *)
Lemma grayscale_round_counterexample :
  ~ (forall r g b : Z, channel r -> channel g -> channel b ->
       grayscale_conversion_func r g b
       = Ok (round_milli (milli 299 587 114 r g b),
             round_milli (milli 299 587 114 r g b),
             round_milli (milli 299 587 114 r g b))).
Proof.
  intros H. specialize (H 0 0 5).
  assert (H0 : channel 0) by (unfold channel; lia).
  assert (H5 : channel 5) by (unfold channel; lia).
  specialize (H H0 H0 H5). vm_compute in H. discriminate H.
Qed.

(** C9, amended: each channel grayscale produces is the weighted sum
    0.299 R + 0.587 G + 0.114 B truncated, not rounded: it is the floor of
    the sum whenever the sum is not a whole number, and that whole number
    or one less when it is.  So it equals round(...) when the fractional
    part is below one half (and not zero), and round(...) - 1 when the
    fractional part is above one half. *)
Theorem grayscale_truncates (r g b : Z) :
  channel r -> channel g -> channel b ->
  exists v : Z,
    grayscale_conversion_func r g b = Ok (v, v, v) /\
    (milli 299 587 114 r g b mod 1000 <> 0 ->
     v = floor_milli (milli 299 587 114 r g b)) /\
    (milli 299 587 114 r g b mod 1000 = 0 ->
     v = floor_milli (milli 299 587 114 r g b) \/
     v = floor_milli (milli 299 587 114 r g b) - 1) /\
    (0 < milli 299 587 114 r g b mod 1000 < 500 ->
     v = round_milli (milli 299 587 114 r g b)) /\
    (500 < milli 299 587 114 r g b mod 1000 ->
     v = round_milli (milli 299 587 114 r g b) - 1).
Proof.
  intros Hr Hg Hb.
  destruct (grayscale_channels r g b Hr Hg Hb) as (v & Hv & _ & Hfloor).
  exists v. split; [exact Hv|].
  unfold floor_milli, round_milli in *.
  set (s := milli 299 587 114 r g b) in *.
  pose proof (Z.div_mod s 1000 ltac:(lia)) as Hds.
  pose proof (Z.mod_pos_bound s 1000 ltac:(lia)) as Hms.
  destruct (Z.ltb_spec (s mod 1000) 500), (Z.ltb_spec 500 (s mod 1000)),
    (Z.even (s / 1000)); lia.
Qed.

Lemma grayscale_truncates_witness :
  exists v : Z,
    grayscale_conversion_func 0 0 5 = Ok (v, v, v) /\
    v = floor_milli (milli 299 587 114 0 0 5) /\
    v = round_milli (milli 299 587 114 0 0 5) - 1.
Proof.
  destruct (grayscale_truncates 0 0 5) as (v & Hv & Hfloor & _ & _ & Hhalf);
    [unfold channel; lia ..|].
  exists v. split; [exact Hv|]. split.
  - apply Hfloor. vm_compute. discriminate.
  - apply Hhalf. vm_compute. reflexivity.
Defined.

(** C7, as stated, fails: grayscale maps (2,2,2) to (1,1,1), and (1,1,1)
    to (0,0,0). *)
Lemma grayscale_idempotent_counterexample :
  ~ (forall r g b : Z, channel r -> channel g -> channel b ->
       result_bind (grayscale_conversion_func r g b)
                   (on_pixel grayscale_conversion_func)
       = grayscale_conversion_func r g b).
Proof.
  intros H. specialize (H 2 2 2).
  assert (Hc : channel 2) by (unfold channel; lia).
  specialize (H Hc Hc Hc). vm_compute in H. discriminate H.
Qed.

(** C7, amended: on a pixel of channel values grayscale returns a gray
    pixel (v,v,v) of channel values, and grayscale applied to that result
    returns a gray pixel (w,w,w) with w = v or w = v - 1: the second pass
    lowers each channel by at most one. *)
Theorem grayscale_twice (r g b : Z) :
  channel r -> channel g -> channel b ->
  exists v w : Z,
    grayscale_conversion_func r g b = Ok (v, v, v) /\
    channel v /\
    result_bind (grayscale_conversion_func r g b)
                (on_pixel grayscale_conversion_func)
    = Ok (w, w, w) /\
    (w = v \/ w = v - 1).
Proof.
  intros Hr Hg Hb.
  destruct (grayscale_channels r g b Hr Hg Hb) as (v & Hv & Hv0 & Hfloor).
  assert (Hcv : channel v).
  { unfold channel, floor_milli, milli in *.
    pose proof (Z.div_mod (299 * r + 587 * g + 114 * b) 1000 ltac:(lia)).
    pose proof (Z.mod_pos_bound (299 * r + 587 * g + 114 * b) 1000 ltac:(lia)).
    lia. }
  destruct (grayscale_channels v v v Hcv Hcv Hcv) as (w & Hw & _ & Hfloor').
  exists v, w. split; [exact Hv|]. split; [exact Hcv|].
  rewrite Hv. cbn [result_bind on_pixel]. split; [exact Hw|].
  unfold floor_milli, milli in Hfloor'.
  replace (299 * v + 587 * v + 114 * v) with (v * 1000) in Hfloor' by lia.
  rewrite Z.div_mul in Hfloor' by lia. lia.
Qed.

Lemma grayscale_twice_witness :
  exists v w : Z,
    grayscale_conversion_func 2 2 2 = Ok (v, v, v) /\
    result_bind (grayscale_conversion_func 2 2 2)
                (on_pixel grayscale_conversion_func)
    = Ok (w, w, w) /\
    (w = v \/ w = v - 1).
Proof.
  destruct (grayscale_twice 2 2 2) as (v & w & Hv & _ & Hw & Hvw);
    [unfold channel; lia ..|].
  exists v, w. auto.
Defined.

(** ** Sepia *)

(** C3, as stated, fails: on the pixel (4,11,21) the red weighted sum is
    exactly 14, but sepia returns red channel 13. *)
Lemma sepia_trunc_counterexample :
  ~ (forall r g b : Z, channel r -> channel g -> channel b ->
       sepia_conversion_func r g b
       = Ok (floor_milli (milli 393 769 189 r g b),
             floor_milli (milli 349 686 168 r g b),
             floor_milli (milli 272 534 131 r g b))).
Proof.
  intros H. specialize (H 4 11 21).
  assert (H4 : channel 4) by (unfold channel; lia).
  assert (H11 : channel 11) by (unfold channel; lia).
  assert (H21 : channel 21) by (unfold channel; lia).
  specialize (H H4 H11 H21). vm_compute in H. discriminate H.
Qed.

(** C3, amended: on a pixel of channel values sepia returns (R',G',B')
    where each channel is the truncation of its weighted sum
    (0.393 r + 0.769 g + 0.189 b, 0.349 r + 0.686 g + 0.168 b,
    0.272 r + 0.534 g + 0.131 b) whenever that sum is not a whole number,
    and that whole number or one less when it is; no clamp to 255 is
    applied, as on (255,255,255), which gives (344,306,238). *)
Theorem sepia_trunc (r g b : Z) :
  channel r -> channel g -> channel b ->
  (exists R' G' B' : Z,
     sepia_conversion_func r g b = Ok (R', G', B') /\
     truncates R' (milli 393 769 189 r g b) /\
     truncates G' (milli 349 686 168 r g b) /\
     truncates B' (milli 272 534 131 r g b)) /\
  sepia_conversion_func 255 255 255 = Ok (344, 306, 238).
Proof.
  intros Hr Hg Hb. split; [|vm_compute; reflexivity].
  destruct (weighted_channel 0.393 0.769 0.189 393 769 189
              table_red_r table_red_g table_red_b
              ltac:(lia) ltac:(lia) ltac:(lia) r g b Hr Hg Hb)
    as (s1 & v1 & Hs1 & Hv1 & _ & Hf1).
  destruct (weighted_channel 0.349 0.686 0.168 349 686 168
              table_green_r table_green_g table_green_b
              ltac:(lia) ltac:(lia) ltac:(lia) r g b Hr Hg Hb)
    as (s2 & v2 & Hs2 & Hv2 & _ & Hf2).
  destruct (weighted_channel 0.272 0.534 0.131 272 534 131
              table_blue_r table_blue_g table_blue_b
              ltac:(lia) ltac:(lia) ltac:(lia) r g b Hr Hg Hb)
    as (s3 & v3 & Hs3 & Hv3 & _ & Hf3).
  exists v1, v2, v3. split.
  - unfold sepia_conversion_func. rewrite Hs1, Hs2, Hs3. cbn [result_bind].
    rewrite Hv1, Hv2, Hv3. reflexivity.
  - unfold truncates. repeat split; intros Hmod;
      first [destruct Hf1; tauto | destruct Hf2; tauto | destruct Hf3; tauto].
Qed.

Lemma sepia_trunc_witness :
  exists R' G' B' : Z,
    sepia_conversion_func 100 150 200 = Ok (R', G', B') /\
    R' = 192 /\ G' = 171 /\ B' = 133.
Proof.
  destruct (sepia_trunc 100 150 200) as [(R' & G' & B' & Hrun & HR & HG & HB) _];
    [unfold channel; lia ..|].
  exists R', G', B'. split; [exact Hrun|].
  destruct HR as [HR _], HG as [HG _], HB as [HB _].
  rewrite HR, HG, HB by (vm_compute; discriminate).
  vm_compute. auto.
Defined.

(** * Further properties of the transformer *)

(** One run of the loop body, whatever its outcome, keeps the set of
    coordinates of the pixel map and every pixel but the one visited. *)
Lemma transform_pixel_frame f (i j : Z) (st : image) :
  dom (pixels (transform_pixel f i j st).2) = dom (pixels st) /\
  forall c, c <> (i, j) ->
    pixels (transform_pixel f i j st).2 !! c = pixels st !! c.
Proof.
  unfold transform_pixel, bind, getitem, setitem, lift.
  destruct (pixels st !! (i, j)) as [[[r g] b]|] eqn:Hpm; [|by split].
  destruct (f r g b) as [q|e]; [|by split].
  cbn [pixels trace]. rewrite Hpm.
  destruct (stored q) as [q'|e]; [|by split].
  cbn [snd pixels]. split.
  - apply dom_insert_lookup_L. by rewrite Hpm.
  - intros c Hc. by rewrite lookup_insert_ne.
Qed.

Lemma transform_coords_frame f (cs : list (Z * Z)) (st : image) :
  dom (pixels (transform_coords cs f st).2) = dom (pixels st) /\
  forall c, c ∉ cs ->
    pixels (transform_coords cs f st).2 !! c = pixels st !! c.
Proof.
  unfold transform_coords. revert st.
  induction cs as [|[i j] cs IH]; intros st; [by split|].
  simpl for_each. unfold bind. cbn [fst snd].
  destruct (transform_pixel_frame f i j st) as [Hdom Hout].
  destruct (transform_pixel f i j st) as [[[]|e] st1]; cbn [snd] in *.
  - destruct (IH st1) as [Hdom' Hout']. split; [congruence|].
    intros c Hc. apply not_elem_of_cons in Hc as [Hne Hc].
    rewrite Hout' by exact Hc. by apply Hout.
  - split; [exact Hdom|]. intros c Hc.
    apply not_elem_of_cons in Hc as [Hne _]. by apply Hout.
Qed.

(** X1: whatever the conversion function and whether or not the run
    completes, [transform_pixels] leaves the pixel map with the very set of
    coordinates it had: the image never grows or shrinks. *)
Theorem transform_pixels_dom (width height : Z)
    (f : Z -> Z -> Z -> result pixel) (st : image) :
  dom (pixels (transform_pixels width height f st).2) = dom (pixels st).
Proof.
  rewrite transform_pixels_coords. apply transform_coords_frame.
Qed.

(** X2: whatever the outcome, [transform_pixels] leaves every coordinate
    outside the width x height grid exactly as it was. *)
Theorem transform_pixels_outside (width height : Z)
    (f : Z -> Z -> Z -> result pixel) (st : image) (x y : Z) :
  ~ (0 <= x < width /\ 0 <= y < height) ->
  pixels (transform_pixels width height f st).2 !! (x, y)
  = pixels st !! (x, y).
Proof.
  intros Hout. rewrite transform_pixels_coords.
  apply transform_coords_frame. intros Hc.
  apply elem_of_coords in Hc. simpl in Hc. tauto.
Qed.

Lemma transform_pixels_outside_witness :
  pixels (transform_pixels 1 1 cooler_conversion_func (Image scenario_in [])).2
    !! (1, 0)
  = Some (10, 10, 10).
Proof.
  rewrite (transform_pixels_outside 1 1 cooler_conversion_func
             (Image scenario_in []) 1 0) by lia.
  reflexivity.
Defined.

(** The whole grid converted: outcome, log and final map. *)
Lemma transform_pixels_run (width height : Z) f (st : image) :
  (forall x y, 0 <= x < width -> 0 <= y < height ->
     is_Some (converted f (pixels st) (x, y))) ->
  exists pm' : gmap (Z * Z) pixel,
    transform_pixels width height f st
    = (Ok tt, Image pm' (trace st ++ flat_map (step_trace f (pixels st))
                                        (coords width height))) /\
    forall c, pm' !! c
              = if decide (c ∈ coords width height)
                then converted f (pixels st) c
                else pixels st !! c.
Proof.
  intros Hgrid.
  destruct (transform_coords_run f (coords width height) (NoDup_coords _ _) st)
    as (pm' & Hrun & Hpm').
  - intros [x y] Hc. apply elem_of_coords in Hc as [Hx Hy]. by apply Hgrid.
  - exists pm'. split; [|exact Hpm']. by rewrite transform_pixels_coords.
Qed.

(** The loop stops at the first coordinate where the body raises: the
    coordinates before it are converted, the rest is not visited. *)
Lemma transform_coords_stop f (pre post : list (Z * Z)) (c : Z * Z)
    (st : image) (e : exn) (tr : list access) :
  NoDup (pre ++ c :: post) ->
  (forall c', c' ∈ pre -> is_Some (converted f (pixels st) c')) ->
  (forall st1 : image, pixels st1 !! c = pixels st !! c ->
     transform_pixel f c.1 c.2 st1
     = (Raise e, Image (pixels st1) (trace st1 ++ tr))) ->
  exists pm' : gmap (Z * Z) pixel,
    transform_coords (pre ++ c :: post) f st
    = (Raise e, Image pm' (trace st ++ flat_map (step_trace f (pixels st)) pre
                                    ++ tr)) /\
    forall c', pm' !! c'
               = if decide (c' ∈ pre) then converted f (pixels st) c'
                 else pixels st !! c'.
Proof.
  intros Hnd Hpre Hstep.
  apply NoDup_app in Hnd as (Hndpre & Hdisj & _).
  destruct (transform_coords_run f pre Hndpre st Hpre) as (pm' & Hrun & Hpm').
  exists pm'. split; [|exact Hpm'].
  unfold transform_coords in *. rewrite for_each_app. unfold bind at 1.
  rewrite Hrun. simpl for_each. unfold bind.
  rewrite Hstep.
  - cbn [pixels trace]. by rewrite <- app_assoc.
  - cbn [pixels]. rewrite Hpm'. rewrite decide_False; [reflexivity|].
    intros Hin. apply (Hdisj c Hin). left.
Qed.

(** What [converted] holds: the conversion function's value on the pixel
    found, each channel clipped. *)
Lemma converted_Some f pm (c : Z * Z) (q' : pixel) :
  converted f pm c = Some q' ->
  exists r g b r' g' b',
    pm !! c = Some (r, g, b) /\ f r g b = Ok (r', g', b') /\
    q' = (clip8 r', clip8 g', clip8 b').
Proof.
  unfold converted, conversion.
  destruct (pm !! c) as [[[r g] b]|]; [|discriminate].
  destruct (f r g b) as [[[r' g'] b']|] eqn:Hf; [|discriminate].
  destruct (stored (r', g', b')) as [q|] eqn:Hq; [|discriminate].
  intros [= <-]. exists r, g, b, r', g', b'.
  split; [reflexivity|]. split; [exact Hf|]. by apply stored_Ok.
Qed.

Lemma pre_converted (f : Z -> Z -> Z -> result pixel)
    (pm pm' : gmap (Z * Z) pixel) (pre : list (Z * Z)) :
  (forall c', c' ∈ pre -> is_Some (converted f pm c')) ->
  (forall c', pm' !! c' = if decide (c' ∈ pre) then converted f pm c'
                          else pm !! c') ->
  (forall c', c' ∈ pre ->
     exists r g b r' g' b',
       pm !! c' = Some (r, g, b) /\ f r g b = Ok (r', g', b') /\
       pm' !! c' = Some (clip8 r', clip8 g', clip8 b')) /\
  (forall c', c' ∉ pre -> pm' !! c' = pm !! c').
Proof.
  intros Hpre Hpm'. split.
  - intros c' Hc'. destruct (Hpre c' Hc') as [q' Hq'].
    destruct (converted_Some f pm c' q' Hq')
      as (r & g & b & r' & g' & b' & Hpm & Hf & ->).
    exists r, g, b, r', g', b'. repeat split; try assumption.
    rewrite Hpm'. by rewrite decide_True.
  - intros c' Hc'. rewrite Hpm'. by rewrite decide_False.
Qed.

(** X3: when the grid reaches a coordinate the pixel map does not hold (a
    width or height larger than the image), [transform_pixels] raises
    [IndexError] there: the coordinates visited before it hold the
    conversion function's value on their original pixel, each channel
    clipped to 0..255; that coordinate and the later ones are neither read
    nor written. *)
Theorem transform_pixels_index_error (width height : Z)
    (f : Z -> Z -> Z -> result pixel) (st : image)
    (pre post : list (Z * Z)) (c : Z * Z) :
  coords width height = pre ++ c :: post ->
  (forall c', c' ∈ pre -> is_Some (converted f (pixels st) c')) ->
  pixels st !! c = None ->
  exists st' : image,
    transform_pixels width height f st = (Raise IndexError, st') /\
    trace st' = trace st ++ flat_map (step_trace f (pixels st)) pre /\
    (forall c', c' ∈ pre ->
       exists r g b r' g' b',
         pixels st !! c' = Some (r, g, b) /\ f r g b = Ok (r', g', b') /\
         pixels st' !! c' = Some (clip8 r', clip8 g', clip8 b')) /\
    (forall c', c' ∉ pre -> pixels st' !! c' = pixels st !! c').
Proof.
  intros Hsplit Hpre Hmiss.
  destruct (transform_coords_stop f pre post c st IndexError [])
    as (pm' & Hrun & Hpm'); [| exact Hpre | |].
  - rewrite <- Hsplit. apply NoDup_coords.
  - intros st1 Hsame. destruct c as [i j].
    unfold transform_pixel, bind, getitem. cbn [fst snd].
    rewrite Hsame, Hmiss, app_nil_r. by destruct st1.
  - eexists. rewrite transform_pixels_coords, Hsplit. split; [exact Hrun|].
    cbn [pixels trace]. rewrite app_nil_r. split; [reflexivity|].
    by apply pre_converted.
Qed.

Lemma transform_pixels_index_error_witness :
  exists st' : image,
    transform_pixels 3 1 cooler_conversion_func (Image scenario_in [])
    = (Raise IndexError, st') /\
    pixels st' !! (1, 0) = Some (0, 10, 25).
Proof.
  destruct (transform_pixels_index_error 3 1 cooler_conversion_func
              (Image scenario_in []) [(0, 0); (1, 0)] [] (2, 0))
    as (st' & Hrun & _ & Hpre & _).
  - reflexivity.
  - intros c' Hc'. apply elem_of_cons in Hc' as [-> | Hc'].
    + exists (185, 150, 115). reflexivity.
    + apply elem_of_cons in Hc' as [-> | Hc'].
      * exists (0, 10, 25). reflexivity.
      * by apply elem_of_nil in Hc'.
  - reflexivity.
  - exists st'. split; [exact Hrun|].
    destruct (Hpre (1, 0)) as (r & g & b & r' & g' & b' & Hpm & Hf & Hst').
    + right. left.
    + rewrite Hst'. injection Hpm as <- <- <-.
      unfold cooler_conversion_func, int_of_int in Hf.
      injection Hf as <- <- <-. reflexivity.
Defined.

(** X4: when the conversion function raises on the pixel of some
    coordinate, [transform_pixels] raises the same exception: the
    coordinates visited before hold the conversion function's value on
    their original pixel, each channel clipped to 0..255; the failing
    coordinate has been read but is not written, and the later ones are
    not visited. *)
Theorem transform_pixels_conversion_error (width height : Z)
    (f : Z -> Z -> Z -> result pixel) (st : image)
    (pre post : list (Z * Z)) (c : Z * Z) (r g b : Z) (e : exn) :
  coords width height = pre ++ c :: post ->
  (forall c', c' ∈ pre -> is_Some (converted f (pixels st) c')) ->
  pixels st !! c = Some (r, g, b) ->
  f r g b = Raise e ->
  exists st' : image,
    transform_pixels width height f st = (Raise e, st') /\
    trace st' = trace st ++ flat_map (step_trace f (pixels st)) pre
                         ++ [Read c.1 c.2] /\
    pixels st' !! c = Some (r, g, b) /\
    (forall c', c' ∈ pre ->
       exists r0 g0 b0 r' g' b',
         pixels st !! c' = Some (r0, g0, b0) /\ f r0 g0 b0 = Ok (r', g', b') /\
         pixels st' !! c' = Some (clip8 r', clip8 g', clip8 b')) /\
    (forall c', c' ∉ pre -> pixels st' !! c' = pixels st !! c').
Proof.
  intros Hsplit Hpre Hpm Hf.
  assert (Hnd : NoDup (pre ++ c :: post))
    by (rewrite <- Hsplit; apply NoDup_coords).
  destruct (transform_coords_stop f pre post c st e [Read c.1 c.2])
    as (pm' & Hrun & Hpm'); [exact Hnd | exact Hpre | |].
  - intros st1 Hsame. destruct c as [i j].
    unfold transform_pixel, bind, getitem, lift. cbn [fst snd].
    rewrite Hsame, Hpm, Hf. reflexivity.
  - eexists. rewrite transform_pixels_coords, Hsplit. split; [exact Hrun|].
    cbn [pixels trace]. split; [reflexivity|].
    destruct (pre_converted f (pixels st) pm' pre Hpre Hpm') as [Hin Hout].
    split; [|split; assumption].
    rewrite Hout; [exact Hpm|].
    apply NoDup_app in Hnd as (_ & Hdisj & _).
    intros Hc. apply (Hdisj c Hc). left.
Qed.

Lemma transform_pixels_conversion_error_witness :
  exists st' : image,
    transform_pixels 2 1
      (fun r g b => if r <? 100 then Raise ValueError
                    else cooler_conversion_func r g b)
      (Image scenario_in [])
    = (Raise ValueError, st') /\
    pixels st' !! (1, 0) = Some (10, 10, 10).
Proof.
  destruct (transform_pixels_conversion_error 2 1
              (fun r g b => if r <? 100 then Raise ValueError
                            else cooler_conversion_func r g b)
              (Image scenario_in []) [(0, 0)] [] (1, 0) 10 10 10 ValueError)
    as (st' & Hrun & _ & Hc & _).
  - reflexivity.
  - intros c' Hc'. apply elem_of_cons in Hc' as [-> | Hc'].
    + exists (185, 150, 115). reflexivity.
    + by apply elem_of_nil in Hc'.
  - reflexivity.
  - reflexivity.
  - exists st'. split; [exact Hrun|exact Hc].
Defined.

Lemma length_coords (width height : Z) :
  length (coords width height) = (Z.to_nat width * Z.to_nat height)%nat.
Proof.
  unfold coords, range. rewrite <- (length_seqZ 0 width).
  generalize (seqZ 0 width) as xs. intros xs.
  induction xs as [|i xs IH]; [reflexivity|].
  rewrite bind_cons, length_app, IH, length_fmap, length_seqZ. simpl. lia.
Qed.


Lemma length_step_traces f pm (cs : list (Z * Z)) :
  (forall c, c ∈ cs -> is_Some (converted f pm c)) ->
  length (flat_map (step_trace f pm) cs) = (2 * length cs)%nat.
Proof.
  induction cs as [|c cs IH]; intros Hall; [reflexivity|].
  simpl flat_map. rewrite length_app, IH.
  - unfold step_trace. destruct (Hall c) as [q' Hq']; [left|].
    unfold converted in Hq'.
    destruct (conversion f pm c) as [[q0 q1]|]; [|discriminate]. simpl. lia.
  - intros c' Hc'. apply Hall. by right.
Qed.

(** In the log of a run over distinct convertible coordinates, each
    coordinate visited is read once and written once, and no other
    coordinate is accessed. *)
Lemma accesses_step_traces f pm (cs : list (Z * Z)) (x y : Z) :
  NoDup cs ->
  (forall c, c ∈ cs -> is_Some (converted f pm c)) ->
  reads_at x y (flat_map (step_trace f pm) cs)
  = (if decide ((x, y) ∈ cs) then 1 else 0)%nat /\
  writes_at x y (flat_map (step_trace f pm) cs)
  = (if decide ((x, y) ∈ cs) then 1 else 0)%nat.
Proof.
  unfold reads_at, writes_at.
  induction 1 as [|[i j] cs Hnin Hnd IH]; intros Hall.
  - rewrite decide_False by apply not_elem_of_nil. by split.
  - destruct IH as [IHr IHw]; [intros c' Hc'; apply Hall; by right|].
    simpl flat_map. rewrite !List.filter_app, !length_app, IHr, IHw.
    unfold step_trace. destruct (Hall (i, j)) as [q' Hq']; [left|].
    unfold converted in Hq'.
    destruct (conversion f pm (i, j)) as [[q0 q1]|]; [|discriminate].
    cbn [fst snd List.filter is_read_at is_write_at].
    destruct (decide ((x, y) = (i, j))) as [Heq|Hne].
    + injection Heq as -> ->. rewrite !Z.eqb_refl. cbn [andb length].
      destruct (decide ((i, j) ∈ cs)) as [?|_]; [contradiction|].
      rewrite decide_True by left. by split.
    + assert (Hb : (x =? i) && (y =? j) = false).
      { apply andb_false_iff.
        destruct (Z.eqb_spec x i), (Z.eqb_spec y j); auto. congruence. }
      rewrite Hb. cbn [length].
      destruct (decide ((x, y) ∈ cs)) as [Hin|Hout].
      * rewrite decide_True by (by right). by split.
      * rewrite decide_False; [by split|].
        intros Hc. apply elem_of_cons in Hc as [?|?]; contradiction.
Qed.

(** X5: a run that completes visits exactly the width * height coordinates
    of the grid: the accesses it adds to the log are two per coordinate,
    each coordinate of the grid being read exactly once and written exactly
    once, and no coordinate outside the grid being read or written. *)
Theorem transform_pixels_access_count (width height : Z)
    (f : Z -> Z -> Z -> result pixel) (st : image) :
  (forall x y, 0 <= x < width -> 0 <= y < height ->
     exists r g b q q',
       pixels st !! (x, y) = Some (r, g, b) /\ f r g b = Ok q /\
       stored q = Ok q') ->
  exists (st' : image) (added : list access),
    transform_pixels width height f st = (Ok tt, st') /\
    trace st' = trace st ++ added /\
    length added = (2 * (Z.to_nat width * Z.to_nat height))%nat /\
    (forall x y, 0 <= x < width -> 0 <= y < height ->
       reads_at x y added = 1%nat /\ writes_at x y added = 1%nat) /\
    (forall x y, ~ (0 <= x < width /\ 0 <= y < height) ->
       reads_at x y added = 0%nat /\ writes_at x y added = 0%nat).
Proof.
  intros Hgrid.
  assert (Hconv : forall c, c ∈ coords width height ->
            is_Some (converted f (pixels st) c)).
  { intros [x y] Hc. apply elem_of_coords in Hc as [Hx Hy].
    destruct (Hgrid x y Hx Hy) as (r & g & b & q & q' & Hpm & Hf & Hq).
    exists q'. by apply (converted_intro f _ _ r g b q q'). }
  destruct (transform_pixels_run width height f st) as (pm' & Hrun & _).
  { intros x y Hx Hy. apply Hconv, elem_of_coords. simpl. lia. }
  eexists _, _. split; [exact Hrun|]. cbn [trace]. split; [reflexivity|].
  split; [by rewrite length_step_traces, length_coords|].
  split.
  - intros x y Hx Hy.
    destruct (accesses_step_traces f (pixels st) (coords width height) x y
                (NoDup_coords _ _) Hconv) as [Hr Hw].
    rewrite Hr, Hw.
    rewrite decide_True by (apply elem_of_coords; simpl; lia). by split.
  - intros x y Hout.
    destruct (accesses_step_traces f (pixels st) (coords width height) x y
                (NoDup_coords _ _) Hconv) as [Hr Hw].
    rewrite Hr, Hw. rewrite decide_False; [by split|].
    intros Hc. apply elem_of_coords in Hc. simpl in Hc. tauto.
Qed.

Lemma transform_pixels_access_count_witness :
  exists (st' : image) (added : list access),
    transform_pixels 2 1 cooler_conversion_func (Image scenario_in [])
    = (Ok tt, st') /\
    trace st' = added /\
    reads_at 1 0 added = 1%nat /\ writes_at 1 0 added = 1%nat.
Proof.
  destruct (transform_pixels_access_count 2 1 cooler_conversion_func
              (Image scenario_in []))
    as (st' & added & Hrun & Htrace & _ & Hin & _).
  - intros x y Hx Hy.
    assert (Hxy : (x = 0 \/ x = 1) /\ y = 0) by lia.
    destruct Hxy as [[-> | ->] ->].
    + exists 200, 150, 100, (185, 150, 115), (185, 150, 115).
      repeat split; reflexivity.
    + exists 10, 10, 10, (-5, 10, 25), (0, 10, 25).
      repeat split; reflexivity.
  - exists st', added. split; [exact Hrun|]. split; [exact Htrace|].
    apply Hin; lia.
Defined.

(** X6: a width or a height that is zero or negative gives an empty
    [range]: [transform_pixels] returns normally without reading or
    writing anything. *)
Theorem transform_pixels_nonpositive (width height : Z)
    (f : Z -> Z -> Z -> result pixel) (st : image) :
  width <= 0 \/ height <= 0 ->
  transform_pixels width height f st = (Ok tt, st).
Proof.
  intros Hdim. rewrite transform_pixels_coords.
  assert (Hnil : coords width height = []).
  { apply length_zero_iff_nil. rewrite length_coords. lia. }
  rewrite Hnil. reflexivity.
Qed.

Lemma transform_pixels_nonpositive_witness :
  transform_pixels 4 (-3) warmer_conversion_func (Image scenario_in [])
  = (Ok tt, Image scenario_in []).
Proof.
  apply (transform_pixels_nonpositive 4 (-3) warmer_conversion_func
           (Image scenario_in [])).
  right. lia.
Defined.

(** X7: two passes against one.  When a first pass with [f] and a second
    pass with [h] both find every pixel of the grid convertible, they
    complete and leave the pixel map that a single pass leaves which, at
    each pixel, applies [f], clips the channels as the pixel map does, and
    applies [h]. *)
Theorem transform_pixels_compose (width height : Z)
    (f h : Z -> Z -> Z -> result pixel) (st : image) :
  (forall x y, 0 <= x < width -> 0 <= y < height ->
     exists r g b q q' p p',
       pixels st !! (x, y) = Some (r, g, b) /\
       f r g b = Ok q /\ stored q = Ok q' /\
       on_pixel h q' = Ok p /\ stored p = Ok p') ->
  exists st1 st2 st12 : image,
    transform_pixels width height f st = (Ok tt, st1) /\
    transform_pixels width height h st1 = (Ok tt, st2) /\
    transform_pixels width height (and_then f h) st = (Ok tt, st12) /\
    pixels st2 = pixels st12.
Proof.
  intros Hgrid.
  destruct (transform_pixels_run width height f st) as (pm1 & Hrun1 & Hpm1).
  { intros x y Hx Hy.
    destruct (Hgrid x y Hx Hy)
      as (r & g & b & q & q' & p & p' & Hpm & Hf & Hq & _).
    exists q'. by apply (converted_intro f _ _ r g b q q'). }
  set (st1 := Image pm1 _) in Hrun1.
  assert (Hsecond : forall x y, 0 <= x < width -> 0 <= y < height ->
            converted h (pixels st1) (x, y)
            = converted (and_then f h) (pixels st) (x, y) /\
            is_Some (converted h (pixels st1) (x, y))).
  { intros x y Hx Hy.
    destruct (Hgrid x y Hx Hy)
      as (r & g & b & q & q' & p & p' & Hpm & Hf & Hq & Hh & Hp).
    assert (H1 : pixels st1 !! (x, y) = Some q').
    { cbn [pixels]. rewrite Hpm1.
      rewrite decide_True by (apply elem_of_coords; simpl; lia).
      by apply (converted_intro f _ _ r g b q q'). }
    assert (H12 : and_then f h r g b = Ok p).
    { unfold and_then. rewrite Hf. cbn [result_bind]. rewrite Hq. exact Hh. }
    destruct q' as [[r1 g1] b1]. simpl in Hh.
    rewrite (converted_intro h _ _ r1 g1 b1 p p' H1 Hh Hp).
    rewrite (converted_intro (and_then f h) _ _ r g b p p' Hpm H12 Hp).
    by split. }
  destruct (transform_pixels_run width height h st1) as (pm2 & Hrun2 & Hpm2).
  { intros x y Hx Hy. by apply Hsecond. }
  destruct (transform_pixels_run width height (and_then f h) st)
    as (pm12 & Hrun12 & Hpm12).
  { intros x y Hx Hy. destruct (Hsecond x y Hx Hy) as [<- Hsome]. exact Hsome. }
  eexists _, _, _. split; [exact Hrun1|]. split; [exact Hrun2|].
  split; [exact Hrun12|]. cbn [pixels].
  apply map_eq. intros c. rewrite Hpm2, Hpm12.
  destruct (decide (c ∈ coords width height)) as [Hin|Hout].
  - destruct c as [x y]. apply elem_of_coords in Hin as [Hx Hy].
    by apply Hsecond.
  - cbn [pixels]. rewrite Hpm1. by rewrite decide_False.
Qed.

Lemma transform_pixels_compose_witness :
  exists st1 st2 st12 : image,
    transform_pixels 2 1 warmer_conversion_func (Image scenario_in [])
    = (Ok tt, st1) /\
    transform_pixels 2 1 cooler_conversion_func st1 = (Ok tt, st2) /\
    transform_pixels 2 1
      (and_then warmer_conversion_func cooler_conversion_func)
      (Image scenario_in [])
    = (Ok tt, st12) /\
    pixels st2 = pixels st12.
Proof.
  apply (transform_pixels_compose 2 1 warmer_conversion_func
           cooler_conversion_func (Image scenario_in [])).
  intros x y Hx Hy.
  assert (Hxy : (x = 0 \/ x = 1) /\ y = 0) by lia.
  destruct Hxy as [[-> | ->] ->].
  - exists 200, 150, 100, (215, 150, 85), (215, 150, 85),
      (200, 150, 100), (200, 150, 100).
    repeat split; reflexivity.
  - exists 10, 10, 10, (25, 10, -5), (25, 10, 0), (10, 10, 15), (10, 10, 15).
    repeat split; reflexivity.
Defined.

(** * Further properties of the filters *)




(** X9: on an image whose pixels on the grid all have channel values in
    0..255, the grayscale filter completes, and every pixel of the grid
    ends with three equal channels, again in 0..255. *)
Theorem grayscale_image (width height : Z) (st : image) :
  (forall x y, 0 <= x < width -> 0 <= y < height ->
     exists r g b, pixels st !! (x, y) = Some (r, g, b) /\
                   channel r /\ channel g /\ channel b) ->
  exists st' : image,
    convert_to_grayscale width height st = (Ok tt, st') /\
    forall x y, 0 <= x < width -> 0 <= y < height ->
      exists v, pixels st' !! (x, y) = Some (v, v, v) /\ channel v.
Proof.
  intros Hgrid. unfold convert_to_grayscale.
  assert (Hgray : forall x y, 0 <= x < width -> 0 <= y < height ->
            exists v, converted grayscale_conversion_func (pixels st) (x, y)
                      = Some (v, v, v) /\ channel v).
  { intros x y Hx Hy.
    destruct (Hgrid x y Hx Hy) as (r & g & b & Hpm & Hr & Hg & Hb).
    destruct (grayscale_channels r g b Hr Hg Hb) as (v & Hv & Hv0 & Hfloor).
    assert (Hcv : channel v).
    { unfold channel, floor_milli, milli in *.
      pose proof (Z.div_mod (299 * r + 587 * g + 114 * b) 1000 ltac:(lia)).
      pose proof (Z.mod_pos_bound (299 * r + 587 * g + 114 * b) 1000
                    ltac:(lia)).
      lia. }
    exists v. split; [|exact Hcv].
    apply (converted_intro _ _ _ r g b (v, v, v) (v, v, v) Hpm Hv).
    by apply stored_channel. }
  destruct (transform_pixels_run width height grayscale_conversion_func st)
    as (pm' & Hrun & Hpm').
  { intros x y Hx Hy. destruct (Hgray x y Hx Hy) as (v & -> & _). by eexists. }
  eexists. split; [exact Hrun|]. cbn [pixels]. intros x y Hx Hy.
  destruct (Hgray x y Hx Hy) as (v & Hv & Hcv). exists v. split; [|exact Hcv].
  rewrite Hpm'. by rewrite decide_True by (apply elem_of_coords; simpl; lia).
Qed.

Lemma grayscale_image_witness :
  exists st' : image,
    convert_to_grayscale 2 1 (Image scenario_in []) = (Ok tt, st') /\
    exists v, pixels st' !! (0, 0) = Some (v, v, v) /\ channel v.
Proof.
  destruct (grayscale_image 2 1 (Image scenario_in [])) as (st' & Hrun & Hpx).
  - intros x y Hx Hy.
    assert (Hxy : (x = 0 \/ x = 1) /\ y = 0) by lia.
    destruct Hxy as [[-> | ->] ->].
    + exists 200, 150, 100. unfold channel. repeat split; lia.
    + exists 10, 10, 10. unfold channel. repeat split; lia.
  - exists st'. split; [exact Hrun|]. apply Hpx; lia.
Defined.

(** X10: the gray level grayscale returns lies between the smallest
    channel of the input minus one and its largest channel: it never
    brightens beyond the brightest channel. *)
Theorem grayscale_between (r g b : Z) :
  channel r -> channel g -> channel b ->
  exists v : Z,
    grayscale_conversion_func r g b = Ok (v, v, v) /\
    Z.min r (Z.min g b) - 1 <= v <= Z.max r (Z.max g b).
Proof.
  intros Hr Hg Hb.
  destruct (grayscale_channels r g b Hr Hg Hb) as (v & Hv & Hv0 & Hfloor).
  exists v. split; [exact Hv|].
  unfold channel, floor_milli, milli in *.
  pose proof (Z.div_mod (299 * r + 587 * g + 114 * b) 1000 ltac:(lia)).
  pose proof (Z.mod_pos_bound (299 * r + 587 * g + 114 * b) 1000 ltac:(lia)).
  lia.
Qed.

Lemma grayscale_between_witness :
  exists v : Z,
    grayscale_conversion_func 10 20 30 = Ok (v, v, v) /\ 9 <= v <= 30.
Proof.
  destruct (grayscale_between 10 20 30) as (v & Hv & Hb);
    [unfold channel; lia ..|].
  exists v. split; [exact Hv|]. simpl in Hb. lia.
Defined.

(** X11: what grayscale makes of a gray pixel.  For every gray level [v]
    in 0..255 it returns (v,v,v), except at the 65 levels of
    [darkened_levels], where it returns (v-1,v-1,v-1). *)
Theorem grayscale_of_gray (v : Z) :
  channel v ->
  grayscale_conversion_func v v v
  = Ok (gray_of_gray v, gray_of_gray v, gray_of_gray v).
Proof.
  intros Hv.
  assert (Hall : forallb gray_level_ok (range 256) = true)
    by (vm_compute; reflexivity).
  rewrite forallb_forall in Hall.
  assert (Hok : gray_level_ok v = true).
  { apply Hall, list_elem_of_In, elem_of_seqZ. unfold channel in Hv. lia. }
  unfold gray_level_ok in Hok.
  destruct (grayscale_conversion_func v v v) as [[[c1 c2] c3]|]; [|discriminate].
  rewrite !andb_true_iff, !Z.eqb_eq in Hok.
  destruct Hok as [[-> ->] ->]. reflexivity.
Qed.

Lemma grayscale_of_gray_witness :
  grayscale_conversion_func 254 254 254 = Ok (253, 253, 253) /\
  grayscale_conversion_func 255 255 255 = Ok (255, 255, 255).
Proof.
  split.
  - rewrite (grayscale_of_gray 254) by (unfold channel; lia). reflexivity.
  - rewrite (grayscale_of_gray 255) by (unfold channel; lia). reflexivity.
Defined.

(** What sepia returns on a pixel of channel values. *)
Lemma sepia_channels (r g b : Z) :
  channel r -> channel g -> channel b ->
  exists R' G' B' : Z,
    sepia_conversion_func r g b = Ok (R', G', B') /\
    (0 <= R' /\
     (R' = floor_milli (milli 393 769 189 r g b) \/
      (milli 393 769 189 r g b mod 1000 = 0 /\
       R' = floor_milli (milli 393 769 189 r g b) - 1))) /\
    (0 <= G' /\
     (G' = floor_milli (milli 349 686 168 r g b) \/
      (milli 349 686 168 r g b mod 1000 = 0 /\
       G' = floor_milli (milli 349 686 168 r g b) - 1))) /\
    (0 <= B' /\
     (B' = floor_milli (milli 272 534 131 r g b) \/
      (milli 272 534 131 r g b mod 1000 = 0 /\
       B' = floor_milli (milli 272 534 131 r g b) - 1))).
Proof.
  intros Hr Hg Hb.
  destruct (weighted_channel 0.393 0.769 0.189 393 769 189
              table_red_r table_red_g table_red_b
              ltac:(lia) ltac:(lia) ltac:(lia) r g b Hr Hg Hb)
    as (s1 & v1 & Hs1 & Hv1 & H1).
  destruct (weighted_channel 0.349 0.686 0.168 349 686 168
              table_green_r table_green_g table_green_b
              ltac:(lia) ltac:(lia) ltac:(lia) r g b Hr Hg Hb)
    as (s2 & v2 & Hs2 & Hv2 & H2).
  destruct (weighted_channel 0.272 0.534 0.131 272 534 131
              table_blue_r table_blue_g table_blue_b
              ltac:(lia) ltac:(lia) ltac:(lia) r g b Hr Hg Hb)
    as (s3 & v3 & Hs3 & Hv3 & H3).
  exists v1, v2, v3. split; [|auto].
  unfold sepia_conversion_func. rewrite Hs1, Hs2, Hs3. cbn [result_bind].
  rewrite Hv1, Hv2, Hv3. reflexivity.
Qed.

(** X12: on a pixel of channel values sepia never raises and never
    returns a negative channel; red is at most 344, green at most 306 and
    blue at most 238, so only red and green can leave the range 0..255. *)
Theorem sepia_bounds (r g b : Z) :
  channel r -> channel g -> channel b ->
  exists R' G' B' : Z,
    sepia_conversion_func r g b = Ok (R', G', B') /\
    0 <= R' <= 344 /\ 0 <= G' <= 306 /\ 0 <= B' <= 238.
Proof.
  intros Hr Hg Hb.
  destruct (sepia_channels r g b Hr Hg Hb)
    as (R' & G' & B' & Hrun & [HR0 HR] & [HG0 HG] & [HB0 HB]).
  exists R', G', B'. split; [exact Hrun|].
  unfold channel, floor_milli, milli in *.
  pose proof (Z.div_mod (393 * r + 769 * g + 189 * b) 1000 ltac:(lia)).
  pose proof (Z.mod_pos_bound (393 * r + 769 * g + 189 * b) 1000 ltac:(lia)).
  pose proof (Z.div_mod (349 * r + 686 * g + 168 * b) 1000 ltac:(lia)).
  pose proof (Z.mod_pos_bound (349 * r + 686 * g + 168 * b) 1000 ltac:(lia)).
  pose proof (Z.div_mod (272 * r + 534 * g + 131 * b) 1000 ltac:(lia)).
  pose proof (Z.mod_pos_bound (272 * r + 534 * g + 131 * b) 1000 ltac:(lia)).
  lia.
Qed.

Lemma sepia_bounds_witness :
  exists R' G' B' : Z,
    sepia_conversion_func 255 255 255 = Ok (R', G', B') /\
    0 <= R' <= 344 /\ 0 <= G' <= 306 /\ 0 <= B' <= 238.
Proof.
  apply (sepia_bounds 255 255 255); unfold channel; lia.
Defined.

(** X13: on a pixel of channel values the sepia channels are ordered:
    blue <= green <= red. *)
Theorem sepia_ordered (r g b : Z) :
  channel r -> channel g -> channel b ->
  exists R' G' B' : Z,
    sepia_conversion_func r g b = Ok (R', G', B') /\
    B' <= G' <= R'.
Proof.
  intros Hr Hg Hb.
  destruct (sepia_channels r g b Hr Hg Hb)
    as (R' & G' & B' & Hrun & [HR0 HR] & [HG0 HG] & [HB0 HB]).
  exists R', G', B'. split; [exact Hrun|].
  unfold channel, floor_milli, milli in *.
  pose proof (Z.div_mod (393 * r + 769 * g + 189 * b) 1000 ltac:(lia)).
  pose proof (Z.mod_pos_bound (393 * r + 769 * g + 189 * b) 1000 ltac:(lia)).
  pose proof (Z.div_mod (349 * r + 686 * g + 168 * b) 1000 ltac:(lia)).
  pose proof (Z.mod_pos_bound (349 * r + 686 * g + 168 * b) 1000 ltac:(lia)).
  pose proof (Z.div_mod (272 * r + 534 * g + 131 * b) 1000 ltac:(lia)).
  pose proof (Z.mod_pos_bound (272 * r + 534 * g + 131 * b) 1000 ltac:(lia)).
  lia.
Qed.

Lemma sepia_ordered_witness :
  exists R' G' B' : Z,
    sepia_conversion_func 4 11 21 = Ok (R', G', B') /\ B' <= G' <= R'.
Proof.
  apply (sepia_ordered 4 11 21); unfold channel; lia.
Defined.

(** * Further properties of the registry *)

(** X14: whatever [str.upper] does outside ASCII, [filter_from_string]
    returns a member exactly on the strings whose upper-casing is that
    member's name; and the name of every member leads back to the
    member. *)
Theorem filter_from_string_name (str_upper : string -> string)
    (s : string) (f : Filter) :
  ascii_case str_upper ->
  (filter_from_string_via str_upper s = Ok f <-> str_upper s = Filter_name f) /\
  filter_from_string_via str_upper (Filter_name f) = Ok f.
Proof.
  intros Hup. split.
  - unfold filter_from_string_via, Filter_getitem. cbv zeta.
    repeat match goal with
    | |- context [String.eqb (str_upper s) ?n] =>
        destruct (String.eqb_spec (str_upper s) n) as [->|?]
    end;
    destruct f; simpl; split; intros H; try congruence; try reflexivity;
      try discriminate H.
  - unfold filter_from_string_via. cbv zeta.
    rewrite Hup by (destruct f; reflexivity). destruct f; reflexivity.
Qed.

Lemma filter_from_string_name_witness :
  filter_from_string_via upper_long_s long_s_sepia = Ok SEPIA /\
  filter_from_string_via upper_long_s "SEPIA" = Ok SEPIA.
Proof.
  destruct (filter_from_string_name upper_long_s long_s_sepia SEPIA
              upper_long_s_ascii) as [Hiff Hname].
  split; [|exact Hname]. apply Hiff. reflexivity.
Defined.

(** X15: every filter name the command line accepts resolves, and the
    four members of [Filter] stand for four different pixel-map functions:
    no two selectors can give the same filter. *)
Theorem registry_total_injective :
  (forall name, In name selector_names ->
     exists f, filter_from_string name = Ok f) /\
  (forall f1 f2 : Filter,
     function_for_filter f1 = function_for_filter f2 -> f1 = f2).
Proof.
  split.
  - intros name Hin. simpl in Hin.
    destruct Hin as [<-|[<-|[<-|[<-|[]]]]]; eexists; reflexivity.
  - intros f1 f2 Heq.
    assert (Hrun : function_for_filter f1 1 1 probe
                   = function_for_filter f2 1 1 probe) by (by rewrite Heq).
    clear Heq.
    destruct f1, f2; try reflexivity; vm_compute in Hrun; discriminate Hrun.
Qed.

(** * The filters on whole images, and the pipeline *)

(** A pixel function that returns on every pixel of channel values
    converts every image made of such pixels. *)
Lemma transform_pixels_channels (width height : Z)
    (f : Z -> Z -> Z -> result pixel) (st : image) :
  (forall r g b, channel r -> channel g -> channel b ->
     exists q q', f r g b = Ok q /\ stored q = Ok q') ->
  (forall x y, 0 <= x < width -> 0 <= y < height ->
     exists r g b, pixels st !! (x, y) = Some (r, g, b) /\
                   channel r /\ channel g /\ channel b) ->
  exists st' : image,
    transform_pixels width height f st = (Ok tt, st') /\
    dom (pixels st') = dom (pixels st).
Proof.
  intros Hf Hgrid.
  destruct (transform_pixels_run width height f st) as (pm' & Hrun & _).
  { intros x y Hx Hy.
    destruct (Hgrid x y Hx Hy) as (r & g & b & Hpm & Hr & Hg & Hb).
    destruct (Hf r g b Hr Hg Hb) as (q & q' & Hq & Hq').
    exists q'. by apply (converted_intro f _ _ r g b q q'). }
  eexists. split; [exact Hrun|].
  pose proof (transform_coords_frame f (coords width height) st) as [Hdom _].
  rewrite <- transform_pixels_coords, Hrun in Hdom. exact Hdom.
Qed.

Lemma function_for_filter_run (filter_name : Filter) (width height : Z)
    (st : image) :
  (forall x y, 0 <= x < width -> 0 <= y < height ->
     exists r g b, pixels st !! (x, y) = Some (r, g, b) /\
                   channel r /\ channel g /\ channel b) ->
  exists st' : image,
    function_for_filter filter_name width height st = (Ok tt, st') /\
    dom (pixels st') = dom (pixels st).
Proof.
  intros Hgrid.
  destruct filter_name; cbn [function_for_filter];
    unfold convert_to_grayscale, convert_to_sepia, convert_to_warmer,
      convert_to_cooler;
    apply transform_pixels_channels; try exact Hgrid; intros r g b Hr Hg Hb.
  - destruct (grayscale_channels r g b Hr Hg Hb) as (v & Hv & Hv0 & Hfloor).
    exists (v, v, v). eexists. split; [exact Hv|]. apply stored_small.
    unfold channel, floor_milli, milli in *.
    pose proof (Z.div_mod (299 * r + 587 * g + 114 * b) 1000 ltac:(lia)).
    pose proof (Z.mod_pos_bound (299 * r + 587 * g + 114 * b) 1000 ltac:(lia)).
    lia.
  - destruct (sepia_channels r g b Hr Hg Hb)
      as (R' & G' & B' & Hrun & [HR0 HR] & [HG0 HG] & [HB0 HB]).
    exists (R', G', B'). eexists. split; [exact Hrun|]. apply stored_small.
    unfold channel, floor_milli, milli in *.
    pose proof (Z.div_mod (393 * r + 769 * g + 189 * b) 1000 ltac:(lia)).
    pose proof (Z.mod_pos_bound (393 * r + 769 * g + 189 * b) 1000 ltac:(lia)).
    pose proof (Z.div_mod (349 * r + 686 * g + 168 * b) 1000 ltac:(lia)).
    pose proof (Z.mod_pos_bound (349 * r + 686 * g + 168 * b) 1000 ltac:(lia)).
    pose proof (Z.div_mod (272 * r + 534 * g + 131 * b) 1000 ltac:(lia)).
    pose proof (Z.mod_pos_bound (272 * r + 534 * g + 131 * b) 1000 ltac:(lia)).
    lia.
  - eexists _, _. split; [reflexivity|]. apply stored_small.
    unfold channel, int_of_int in *. lia.
  - eexists _, _. split; [reflexivity|]. apply stored_small.
    unfold channel, int_of_int in *. lia.
Qed.

(** X16: each of the four filters completes on every image whose pixels
    on the grid have channel values in 0..255, and leaves the image with
    the same set of coordinates. *)
Theorem filters_complete (filter_name : Filter) (width height : Z)
    (st : image) :
  (forall x y, 0 <= x < width -> 0 <= y < height ->
     exists r g b, pixels st !! (x, y) = Some (r, g, b) /\
                   channel r /\ channel g /\ channel b) ->
  exists st' : image,
    function_for_filter filter_name width height st = (Ok tt, st') /\
    dom (pixels st') = dom (pixels st).
Proof.
  apply function_for_filter_run.
Qed.

Lemma filters_complete_witness :
  exists st' : image,
    function_for_filter SEPIA 2 1 (Image scenario_in []) = (Ok tt, st') /\
    dom (pixels st') = dom scenario_in.
Proof.
  apply (filters_complete SEPIA 2 1 (Image scenario_in [])).
  intros x y Hx Hy.
  assert (Hxy : (x = 0 \/ x = 1) /\ y = 0) by lia.
  destruct Hxy as [[-> | ->] ->].
  - exists 200, 150, 100. unfold channel. repeat split; lia.
  - exists 10, 10, 10. unfold channel. repeat split; lia.
Defined.

(** X17: [apply_filter] on a file that opens as a picture of channel
    values.  Whatever the filter, the run reaches [save], with the format
    "png" and a picture of the same size and coordinates; it fails only if
    [save] does, and then nothing is shown.  Otherwise it returns after
    exactly one save, followed by one [show] of the saved picture when
    [show_result] is set and by nothing when it is not. *)
Theorem apply_filter_eight_bit
    (Image_open : string -> result picture)
    (Image_save : string -> string -> picture -> result unit)
    (input_img_name output_img_name : string) (filter_name : Filter)
    (show_result : bool) (log : list io_event) (pic : picture) :
  Image_open input_img_name = Ok pic ->
  eight_bit pic ->
  exists pic' : picture,
    width_of pic' = width_of pic /\
    height_of pic' = height_of pic /\
    dom (pixel_data pic') = dom (pixel_data pic) /\
    apply_filter Image_open Image_save input_img_name output_img_name
      filter_name show_result log
    = match Image_save output_img_name "png"%string pic' with
      | Ok _ =>
          (Ok tt,
           log ++ [Opened input_img_name; Saved output_img_name "png" pic']
               ++ (if show_result then [Shown pic'] else []))
      | Raise e => (Raise e, log ++ [Opened input_img_name])
      end.
Proof.
  intros Hopen Hpic. unfold apply_filter. rewrite Hopen. cbv zeta.
  destruct (function_for_filter_run filter_name (width_of pic) (height_of pic)
              (Image (pixel_data pic) []) Hpic)
    as (st' & Hrun & Hdom).
  rewrite Hrun. exists (Picture (width_of pic) (height_of pic) (pixels st')).
  cbn [width_of height_of pixel_data]. repeat split; [exact Hdom|].
  destruct (Image_save _ _ _); [|reflexivity].
  destruct show_result; rewrite <- ?app_assoc; simpl; by rewrite ?app_nil_r.
Qed.

Lemma apply_filter_eight_bit_witness :
  exists pic' : picture,
    width_of pic' = 2 /\
    height_of pic' = 1 /\
    apply_filter (fun _ => Ok (Picture 2 1 scenario_in)) (fun _ _ _ => Ok tt)
      "in.jpg" "output_img.png" COOLER true []
    = (Ok tt, [Opened "in.jpg"; Saved "output_img.png" "png" pic'; Shown pic']).
Proof.
  destruct (apply_filter_eight_bit
              (fun _ => Ok (Picture 2 1 scenario_in)) (fun _ _ _ => Ok tt)
              "in.jpg" "output_img.png" COOLER true [] (Picture 2 1 scenario_in))
    as (pic' & Hw & Hh & _ & Hrun).
  - reflexivity.
  - intros x y Hx Hy. cbn [width_of height_of pixel_data] in *.
    assert (Hxy : (x = 0 \/ x = 1) /\ y = 0) by lia.
    destruct Hxy as [[-> | ->] ->].
    + exists 200, 150, 100. unfold channel. repeat split; lia.
    + exists 10, 10, 10. unfold channel. repeat split; lia.
  - exists pic'. split; [exact Hw|]. split; [exact Hh|]. exact Hrun.
Defined.
